(** * Crossword CSP solver (cs50ai-p3-crossword/generate.py)

    A shallow embedding of [CrosswordCreator]: the domain store, [revise],
    [ac3], the search heuristics and [backtrack], together with the
    properties the specification states about them.

    Python sets and dictionaries are stdpp's [gset] and [gmap]; a [for] loop
    over a set or a dictionary walks [elements] or [map_to_list].  Exceptions
    are values of the error monad [res]. *)

From Stdlib Require Import Ascii String.
From stdpp Require Import gmap strings list fin_maps fin_sets sorting.

Set Warnings "-clear-no-such-hyp".

(** ** Exceptions *)

Inductive exn := TypeError | IndexError | KeyError.

Inductive res (A : Type) :=
  | Ok (a : A)
  | Raise (e : exn).
Arguments Ok {A} a.
Arguments Raise {A} e.

#[global] Instance res_ret : MRet res := λ A a, Ok a.
#[global] Instance res_bind : MBind res := λ A B f m,
  match m with
  | Ok a => f a
  | Raise e => Raise e
  end.
#[global] Instance res_fmap : FMap res := λ A B f m,
  match m with
  | Ok a => Ok (f a)
  | Raise e => Raise e
  end.

(** A [for] loop with an accumulator whose body may raise. *)
Fixpoint foldlM {A B : Type} (f : B → A → res B) (b : B) (l : list A) : res B :=
  match l with
  | [] => Ok b
  | a :: l => b' ← f b a; foldlM f b' l
  end.

(** A loop that returns [False] at the first element failing the test and
    [True] when it runs to its end. *)
Fixpoint forallM {A : Type} (f : A → res bool) (l : list A) : res bool :=
  match l with
  | [] => Ok true
  | a :: l => f a ≫= λ b : bool, if b then forallM f l else Ok false
  end.

(** A loop that appends one item per element. *)
Fixpoint forM {A B : Type} (f : A → res B) (l : list A) : res (list B) :=
  match l with
  | [] => Ok []
  | a :: l => b ← f a; bs ← forM f l; Ok (b :: bs)
  end.

(** ** [list.sort(key=...)]

    Python's sort is stable and compares keys with [<] only.  It is taken
    here as the stable insertion sort: the elements are placed one by one,
    from left to right, each before the first element whose key it is
    smaller than.  On keys that [<] orders totally every stable sort
    returns this list. *)
Section sort.
Context {A K : Type} (lt : K → K → bool) (key : A → K).

Fixpoint sort_insert (x : A) (l : list A) : list A :=
  match l with
  | [] => [x]
  | y :: l' => if lt (key x) (key y) then x :: l else y :: sort_insert x l'
  end.

Definition list_sort (l : list A) : list A :=
  foldl (λ acc x, sort_insert x acc) [] l.
End sort.

(** ** Puzzle model *)

Inductive Direction := ACROSS | DOWN.

(** The class [Variable] of the puzzle model: a slot of the grid. *)
Record Var := mkVar {
  var_i : nat;
  var_j : nat;
  var_direction : Direction;
  var_length : nat
}.

#[global] Instance Direction_eq_dec : EqDecision Direction.
Proof. solve_decision. Defined.

#[global] Instance Var_eq_dec : EqDecision Var.
Proof. solve_decision. Defined.

Definition Var_to_tuple (v : Var) : nat * nat * bool * nat :=
  (var_i v, var_j v,
   match var_direction v with ACROSS => true | DOWN => false end,
   var_length v).

Definition Var_of_tuple (t : nat * nat * bool * nat) : Var :=
  let '(i, j, d, n) := t in
  mkVar i j (if d then ACROSS else DOWN) n.

#[global] Instance Var_countable : Countable Var.
Proof.
  apply (inj_countable' Var_to_tuple Var_of_tuple).
  by intros [i j [] n].
Defined.

(** The crossword the solver is given.  The class lives outside the solver;
    it is taken here at the interface the solver uses: the set of slots, the
    word list, and the overlap of two slots, [None] when they do not cross
    and [Some (i, j)] when the [i]th character of the first meets the [j]th
    character of the second. *)
Record Crossword := mkCrossword {
  variables : gset Var;
  words : gset string;
  overlaps : Var → Var → option (nat * nat)
}.

(** Modelled from the spec: the method [Crossword.neighbors] is not part of
    the solver's source; the interface gives it as the set of slots [y] for
    which [overlap(x, y)] is defined. *)
Definition neighbors (cw : Crossword) (x : Var) : gset Var :=
  filter (λ y, is_Some (overlaps cw x y)) (variables cw).

(** ** Primitive operations *)

(** [s < t] on Python sets: proper inclusion. *)
Definition set_lt (s t : gset Var) : bool :=
  bool_decide (s ⊆ t ∧ s ≠ t).

(** [w[k]] on a string. *)
Definition index (w : string) (k : nat) : res ascii :=
  match String.get k w with
  | Some c => Ok c
  | None => Raise IndexError
  end.

(** [d[k]] on a dictionary. *)
Definition getitem {V : Type} (d : gmap Var V) (k : Var) : res V :=
  match d !! k with
  | Some v => Ok v
  | None => Raise KeyError
  end.

(** [t[0]], [t[1]] and [a, b = t] on a value that is a pair or [None]. *)
Definition subscript {A : Type} (t : option A) : res A :=
  match t with
  | Some p => Ok p
  | None => Raise TypeError
  end.

Abbreviation domains_t := (gmap Var (gset string)).
Abbreviation assignment_t := (gmap Var string).

(** ** The domain store *)

Section creator.
Context (cw : Crossword).

(** [__init__]: every slot starts from a copy of the whole word list. *)
Definition init_domains : domains_t :=
  gset_to_gmap (words cw) (variables cw).

Definition enforce_node_consistency (domains : domains_t) : domains_t :=
  map_imap (λ var domain,
    Some (filter (λ d, String.length d = var_length var) domain)) domains.

(** ** Arc consistency *)

Definition revise_inner (dx : string) (dx_c : ascii) (o_v2 : nat)
    (keep : gset string) (dy : string) : res (gset string) :=
  dy_c ← index dy o_v2;
  mret (if bool_decide (dx_c = dy_c ∧ dx ≠ dy) then keep ∪ {[dx]} else keep).

Definition revise_outer (domains : domains_t) (y : Var) (o_v1 o_v2 : nat)
    (keep : gset string) (dx : string) : res (gset string) :=
  dx_c ← index dx o_v1;
  dom_y ← getitem domains y;
  foldlM (revise_inner dx dx_c o_v2) keep (elements dom_y).

Definition revise (x y : Var) (domains : domains_t) : res (bool * domains_t) :=
  let overlap := overlaps cw x y in
  o_v1 ← fst <$> subscript overlap;
  o_v2 ← snd <$> subscript overlap;
  if bool_decide (overlap ≠ None) then
    dom_x ← getitem domains x;
    keep ← foldlM (revise_outer domains y o_v1 o_v2) ∅ (elements dom_x);
    if bool_decide (keep ≠ ∅) then
      mret (bool_decide (keep ≠ dom_x), <[x := keep]> domains)
    else
      mret (false, domains)
  else
    mret (false, domains).

(** The initial queue of [ac3] when [arcs] is [None]. *)
Definition all_arcs (domains : domains_t) : list (Var * Var) :=
  var ← (map_to_list domains).*1;
  n ← elements (neighbors cw var);
  [(var, n)].

(** One turn of the [while queue] loop: the loop ends with a result, or
    goes on with a new queue and store. *)
Inductive ac3_turn :=
  | Return (r : res (bool * domains_t))
  | Continue (queue : list (Var * Var)) (domains : domains_t).

Definition ac3_step (queue : list (Var * Var)) (domains : domains_t) : ac3_turn :=
  match queue with
  | [] => Return (Ok (true, domains))
  | (x, y) :: queue =>
    match revise x y domains with
    | Raise e => Return (Raise e)
    | Ok (revised, domains) =>
      if revised then
        match getitem domains x with
        | Raise e => Return (Raise e)
        | Ok dom_x =>
          if bool_decide (size dom_x = 0) then Return (Ok (false, domains))
          else
            Continue
              (queue ++ ((λ z, (z, x)) <$> elements (neighbors cw x ∖ {[y]})))
              domains
        end
      else Continue queue domains
    end
  end.

(** The loop itself, bounded by [fuel] turns; [None] when the bound is
    reached before the loop ends. *)
Fixpoint ac3_loop (fuel : nat) (queue : list (Var * Var)) (domains : domains_t)
    : option (res (bool * domains_t)) :=
  match fuel with
  | 0 => None
  | S fuel =>
    match ac3_step queue domains with
    | Return r => Some r
    | Continue queue domains => ac3_loop fuel queue domains
    end
  end.

Definition ac3 (fuel : nat) (arcs : option (list (Var * Var)))
    (domains : domains_t) : option (res (bool * domains_t)) :=
  let arcs := default (all_arcs domains) arcs in
  ac3_loop fuel arcs domains.

(** ** Search *)

Definition assignment_complete (assignment : assignment_t) : bool :=
  (* the values of an [assignment_t] are words, never [None] *)
  bool_decide (dom assignment = variables cw).

Definition consistent_pair (assignment : assignment_t) (x : Var)
    (x_value : string) (neighbor : Var) : res bool :=
  '(ox, on) ← subscript (overlaps cw x neighbor);
  x_c ← index x_value ox;
  n_value ← getitem assignment neighbor;
  n_c ← index n_value on;
  mret (negb (bool_decide (x_c ≠ n_c) || bool_decide (x_value = n_value))).

Definition consistent (assignment : assignment_t) : res bool :=
  forallM (λ '(x, x_value),
    forallM (consistent_pair assignment x x_value)
            (elements (neighbors cw x ∩ dom assignment)))
    (map_to_list assignment).

Section heuristics.
Context (domains : domains_t).

Definition count_value (dx : string) (ox on : nat) (n : nat)
    (value : string) : res nat :=
  dx_c ← index dx ox;
  v_c ← index value on;
  mret (if bool_decide (dx_c ≠ v_c) then S n else n).

Definition count_neighbor (var : Var) (dx : string) (n : nat)
    (neighbor : Var) : res nat :=
  '(ox, on) ← subscript (overlaps cw var neighbor);
  dom_n ← getitem domains neighbor;
  foldlM (count_value dx ox on) n (elements dom_n).

Definition order_domain_values (var : Var) (assignment : assignment_t)
    : res (list string) :=
  let neighbors := neighbors cw var in
  dom_var ← getitem domains var;
  c ← forM (λ dx,
         n ← foldlM (count_neighbor var dx) 0
               (elements (neighbors ∖ dom assignment));
         mret (dx, n))
       (elements dom_var);
  let c := list_sort Nat.ltb snd c in
  mret (c.*1).

Definition select_unassigned_variable (assignment : assignment_t) : res Var :=
  remaining ← forM (λ var, d ← getitem domains var; mret (var, size d))
                   (elements (variables cw ∖ dom assignment));
  let remaining := list_sort Nat.ltb snd remaining in
  match remaining with
  | [] => Raise IndexError
  | min_domain :: _ =>
    let c := length (filter (λ elem, elem.2 = min_domain.2) remaining) in
    if bool_decide (c = 1) then mret (min_domain.1)
    else
      let tied := take c remaining in
      let tied := list_sort set_lt (λ pair, neighbors cw pair.1) tied in
      match tied with
      | [] => Raise IndexError
      | first :: _ => mret (first.1)
      end
  end.

(** The [for value in ...] loop of [backtrack]; [rec] is the recursive
    call. *)
Fixpoint try_values (rec : assignment_t → option (res (option assignment_t)))
    (var : Var) (assignment : assignment_t) (values : list string)
    : option (res (option assignment_t)) :=
  match values with
  | [] => Some (Ok None)
  | value :: values =>
    let new_assignment := <[var := value]> assignment in
    match consistent new_assignment with
    | Raise e => Some (Raise e)
    | Ok false => try_values rec var assignment values
    | Ok true =>
      match rec new_assignment with
      | None => None
      | Some (Raise e) => Some (Raise e)
      | Some (Ok (Some result)) => Some (Ok (Some result))
      | Some (Ok None) => try_values rec var assignment values
      end
    end
  end.

(** [backtrack], with the depth of the recursion bounded by [fuel];
    [None] when the bound is reached. *)
Fixpoint backtrack (fuel : nat) (assignment : assignment_t)
    : option (res (option assignment_t)) :=
  match fuel with
  | 0 => None
  | S fuel =>
    if assignment_complete assignment then Some (Ok (Some assignment))
    else
      match select_unassigned_variable assignment with
      | Raise e => Some (Raise e)
      | Ok var =>
        match order_domain_values var assignment with
        | Raise e => Some (Raise e)
        | Ok values => try_values (backtrack fuel) var assignment values
        end
      end
  end.
End heuristics.

(** The number of words in the store, and the bounds on the loops that the
    proofs below show to be enough. *)
Definition total_size (domains : domains_t) : nat :=
  sum_list_with (λ p, size p.2) (map_to_list domains).

Definition ac3_fuel (queue : list (Var * Var)) (domains : domains_t) : nat :=
  S (length queue + size (variables cw) * total_size domains).

Definition backtrack_fuel (assignment : assignment_t) : nat :=
  S (size (variables cw ∖ dom assignment)).

Definition solve : option (res (option assignment_t)) :=
  let domains := enforce_node_consistency init_domains in
  match ac3 (ac3_fuel (all_arcs domains) domains) None domains with
  | None => None
  | Some (Raise e) => Some (Raise e)
  | Some (Ok (_, domains)) => backtrack domains (backtrack_fuel ∅) ∅
  end.

End creator.

(** ** The properties of the specification *)

Section properties.
Context (cw : Crossword).

(** Two words agree at an overlap when both have a character at their
    index and the two characters are the same. *)
Definition agree (i j : nat) (wx wy : string) : Prop :=
  ∃ c, String.get i wx = Some c ∧ String.get j wy = Some c.

(** [wx], a word for [x], is supported by the domain of [y]: some word of
    that domain agrees with it at the overlap and is another word. *)
Definition supported (domains : domains_t) (x y : Var) (wx : string) : Prop :=
  ∃ i j dom_y wy,
    overlaps cw x y = Some (i, j) ∧ domains !! y = Some dom_y ∧
    wy ∈ dom_y ∧ agree i j wx wy ∧ wx ≠ wy.

Definition arc_consistent (domains : domains_t) : Prop :=
  ∀ x dom_x wx y,
    domains !! x = Some dom_x → wx ∈ dom_x → y ∈ neighbors cw x →
    supported domains x y wx.

Definition node_consistent (domains : domains_t) : Prop :=
  ∀ x dom_x w,
    domains !! x = Some dom_x → w ∈ dom_x → String.length w = var_length x.

Definition complete (assignment : assignment_t) : Prop :=
  dom assignment = variables cw.

(** Every pair of assigned neighbours agrees at its overlap and holds two
    different words. *)
Definition satisfies (assignment : assignment_t) : Prop :=
  ∀ x y wx wy,
    assignment !! x = Some wx → assignment !! y = Some wy →
    y ∈ neighbors cw x →
    ∃ i j, overlaps cw x y = Some (i, j) ∧ agree i j wx wy ∧ wx ≠ wy.

(** Every assigned word is taken from the domain of its slot. *)
Definition drawn_from (domains : domains_t) (assignment : assignment_t) : Prop :=
  ∀ x w, assignment !! x = Some w →
    ∃ dom_x, domains !! x = Some dom_x ∧ w ∈ dom_x.

(** The puzzle model's promise on overlaps: the indices fall inside the
    two slots, and the overlap of [(y, x)] is that of [(x, y)] swapped. *)
Definition wf_pair (x y : Var) : bool :=
  match overlaps cw x y with
  | Some (i, j) =>
    bool_decide (i < var_length x) && bool_decide (j < var_length y) &&
    bool_decide (overlaps cw y x = Some (j, i))
  | None => true
  end.

Definition wf_crossword : Prop :=
  ∀ x y, x ∈ variables cw → y ∈ variables cw → wf_pair x y = true.

Definition wf_crossword_b : bool :=
  forallb (λ x, forallb (wf_pair x) (elements (variables cw)))
          (elements (variables cw)).

(** The store of a creator after node consistency: one domain per slot,
    every word as long as its slot. *)
Definition store_ok (domains : domains_t) : Prop :=
  node_consistent domains ∧ dom domains = variables cw.

(** Every domain of the second store is part of that of the first. *)
Definition shrinks (domains domains' : domains_t) : Prop :=
  ∀ x dom_x', domains' !! x = Some dom_x' →
    ∃ dom_x, domains !! x = Some dom_x ∧ dom_x' ⊆ dom_x.

(** Every arc of the queue pairs a slot with one of its neighbours. *)
Definition neighbor_arcs (queue : list (Var * Var)) : Prop :=
  ∀ x y, (x, y) ∈ queue → x ∈ variables cw ∧ y ∈ neighbors cw x.

(** Every arc of the queue pairs two slots of the puzzle. *)
Definition known_arcs (queue : list (Var * Var)) : Prop :=
  ∀ x y, (x, y) ∈ queue → x ∈ variables cw ∧ y ∈ variables cw.

(** The number of words that choosing [dx] for [var] rules out of the
    domains of the unassigned neighbours of [var]. *)
Definition ruled_out (domains : domains_t) (assignment : assignment_t)
    (var : Var) (dx : string) : nat :=
  sum_list_with (λ neighbor,
    match overlaps cw var neighbor, domains !! neighbor with
    | Some (ox, on), Some dom_n =>
      size (filter (λ value, String.get ox dx ≠ String.get on value) dom_n)
    | _, _ => 0
    end) (elements (neighbors cw var ∖ dom assignment)).

End properties.

(** The loop of [ac3] as a transition system on the queue and the store. *)
Definition ac3_next (cw : Crossword)
    (s s' : list (Var * Var) * domains_t) : Prop :=
  ac3_step cw s.1 s.2 = Continue s'.1 s'.2.

(** The store a turn of the loop leaves behind.  An exception of [revise]
    leaves it as it was, since [revise] writes the store after its loops; the
    lookup of [self.domains[x]] that follows a revision never raises, as the
    revision has just written that entry ([revise_true] below). *)
Definition store_after (domains : domains_t) (t : ac3_turn) : domains_t :=
  match t with
  | Continue _ domains' => domains'
  | Return (Ok (_, domains')) => domains'
  | Return (Raise _) => domains
  end.

(** ** [backtrack] on the shared objects

    The assignments that [backtrack] handles are dictionaries, passed by
    reference, and [self.domains] is a field of the creator.  Here the
    dictionaries live in a heap, addressed by their position, next to the
    store of the creator; [assignment.copy()] allocates and
    [new_assignment[var] = value] writes in place.  The methods that
    [backtrack] calls ([assignment_complete], [select_unassigned_variable],
    [order_domain_values], [consistent]) assign neither to [self.domains]
    nor to their argument: they are applied to the contents read. *)

Record state := mkState {
  self_domains : domains_t;
  dicts : list assignment_t
}.

(** [assignment.copy()]: a new dictionary with the same items. *)
Definition dict_copy (assignment : nat) (σ : state) : option (nat * state) :=
  match dicts σ !! assignment with
  | Some d => Some (length (dicts σ), mkState (self_domains σ) (dicts σ ++ [d]))
  | None => None
  end.

(** [assignment[var] = value]: the dictionary at the address is updated. *)
Definition dict_setitem (assignment : nat) (var : Var) (value : string)
    (σ : state) : option state :=
  match dicts σ !! assignment with
  | Some d =>
    Some (mkState (self_domains σ) (<[assignment := <[var := value]> d]> (dicts σ)))
  | None => None
  end.

Section backtrack_heap.
Context (cw : Crossword).

(** The loop of [backtrack]; [None] stands for a bound reached, or for an
    address that holds no dictionary. *)
Fixpoint try_values_h
    (rec : nat → state → option (res (option nat) * state))
    (var : Var) (assignment : nat) (values : list string) (σ : state)
    : option (res (option nat) * state) :=
  match values with
  | [] => Some (Ok None, σ)
  | value :: values =>
    match dict_copy assignment σ with
    | None => None
    | Some (new_assignment, σ) =>
      match dict_setitem new_assignment var value σ with
      | None => None
      | Some σ =>
        match dicts σ !! new_assignment with
        | None => None
        | Some d =>
          match consistent cw d with
          | Raise e => Some (Raise e, σ)
          | Ok false => try_values_h rec var assignment values σ
          | Ok true =>
            match rec new_assignment σ with
            | None => None
            | Some (Raise e, σ) => Some (Raise e, σ)
            | Some (Ok (Some result), σ) => Some (Ok (Some result), σ)
            | Some (Ok None, σ) => try_values_h rec var assignment values σ
            end
          end
        end
      end
    end
  end.

Fixpoint backtrack_h (fuel : nat) (assignment : nat) (σ : state)
    : option (res (option nat) * state) :=
  match fuel with
  | 0 => None
  | S fuel =>
    match dicts σ !! assignment with
    | None => None
    | Some d =>
      if assignment_complete cw d then Some (Ok (Some assignment), σ)
      else
        match select_unassigned_variable cw (self_domains σ) d with
        | Raise e => Some (Raise e, σ)
        | Ok var =>
          match order_domain_values cw (self_domains σ) var d with
          | Raise e => Some (Raise e, σ)
          | Ok values => try_values_h (backtrack_h fuel) var assignment values σ
          end
        end
    end
  end.

(** What a call leaves: the store of the creator as it was, every
    dictionary that existed before as it was, and a result that is the
    one of [backtrack] on the items of the dictionary. *)
Definition agrees (σ σ' : state) (d : assignment_t) (r : res (option nat))
    (pure : option (res (option assignment_t))) : Prop :=
  self_domains σ' = self_domains σ ∧ dicts σ `prefix_of` dicts σ' ∧
  match r with
  | Raise e => pure = Some (Raise e)
  | Ok None => pure = Some (Ok None)
  | Ok (Some result) =>
    ∃ d', dicts σ' !! result = Some d' ∧ pure = Some (Ok (Some d'))
  end.
End backtrack_heap.

(** The store [solve] hands to [ac3]. *)
Definition node_domains (cw : Crossword) : domains_t :=
  enforce_node_consistency (init_domains cw).

(** ** Concrete puzzles *)

(** Two slots of length three that cross at the last cell of the first and
    the first cell of the second. *)
Definition slot_A : Var := mkVar 0 0 ACROSS 3.
Definition slot_B : Var := mkVar 0 2 DOWN 3.

Definition overlaps_AB (x y : Var) : option (nat * nat) :=
  if bool_decide (x = slot_A ∧ y = slot_B) then Some (2, 0)
  else if bool_decide (x = slot_B ∧ y = slot_A) then Some (0, 2)
  else None.

Definition cw_cat_ten : Crossword :=
  mkCrossword {[slot_A; slot_B]} {["cat"; "ten"; "ace"]}%string overlaps_AB.

Definition cw_cat_dog : Crossword :=
  mkCrossword {[slot_A; slot_B]} {["cat"; "dog"]}%string overlaps_AB.

(** Four slots: [slot_top] runs along the first row, [slot_left] and
    [slot_right] hang from its two ends, and [slot_bottom] starts at the last
    cell of [slot_right]. *)
Definition slot_top : Var := mkVar 0 0 ACROSS 5.
Definition slot_left : Var := mkVar 0 0 DOWN 3.
Definition slot_right : Var := mkVar 0 4 DOWN 3.
Definition slot_bottom : Var := mkVar 2 4 ACROSS 4.

Definition overlaps_four (x y : Var) : option (nat * nat) :=
  if bool_decide (x = slot_top ∧ y = slot_left) then Some (0, 0)
  else if bool_decide (x = slot_left ∧ y = slot_top) then Some (0, 0)
  else if bool_decide (x = slot_top ∧ y = slot_right) then Some (4, 0)
  else if bool_decide (x = slot_right ∧ y = slot_top) then Some (0, 4)
  else if bool_decide (x = slot_right ∧ y = slot_bottom) then Some (2, 0)
  else if bool_decide (x = slot_bottom ∧ y = slot_right) then Some (0, 2)
  else None.

Definition cw_four : Crossword :=
  mkCrossword {[slot_top; slot_left; slot_right; slot_bottom]}
    {["cat"; "sun"; "cross"; "socks"; "clubs"; "stoic";
      "tree"; "nest"; "note"]}%string
    overlaps_four.

(** ** Solutions of a puzzle *)

(** A solution gives every slot a word of the word list that is as long as
    the slot, and satisfies the constraints between neighbours. *)
Definition solution (cw : Crossword) (s : assignment_t) : Prop :=
  complete cw s ∧ satisfies cw s ∧
  ∀ x w, s !! x = Some w → w ∈ words cw ∧ String.length w = var_length x.

(** An arc on which [revise] has nothing to do: the words of the domain of
    [x] all have a support in the domain of [y], or none has. *)
Definition stable (cw : Crossword) (domains : domains_t) (x y : Var) : Prop :=
  ∀ dom_x, domains !! x = Some dom_x →
    (∀ w, w ∈ dom_x → supported cw domains x y w) ∨
    (∀ w, w ∈ dom_x → ¬ supported cw domains x y w).

(** No slot overlaps itself. *)
Definition irreflexive_overlaps (cw : Crossword) : Prop :=
  ∀ x, x ∈ variables cw → overlaps cw x x = None.

(** Every arc of the puzzle is in the queue or has nothing left to do. *)
Definition settled (cw : Crossword) (queue : list (Var * Var))
    (domains : domains_t) : Prop :=
  ∀ x y, x ∈ variables cw → y ∈ neighbors cw x →
         (x, y) ∈ queue ∨ stable cw domains x y.

(** ** [letter_grid]

    The two-dimensional array of the letters of an assignment.  The width
    and the height of the grid are fields of the puzzle; they are taken as
    arguments here. *)

Abbreviation grid_t := (list (list (option ascii))).

(** [[[None for _ in range(width)] for _ in range(height)]] *)
Definition blank_grid (width height : nat) : grid_t :=
  replicate height (replicate width None).

(** [letters[i][j] = c] *)
Definition grid_setitem (letters : grid_t) (i j : nat) (c : ascii) : res grid_t :=
  match letters !! i with
  | None => Raise IndexError
  | Some row =>
    if decide (j < length row) then Ok (<[i := <[j := Some c]> row]> letters)
    else Raise IndexError
  end.

(** The body of the loop on [k]. *)
Definition write_letter (variable : Var) (word : string) (letters : grid_t)
    (k : nat) : res grid_t :=
  let direction := var_direction variable in
  let i := var_i variable + (if decide (direction = DOWN) then k else 0) in
  let j := var_j variable + (if decide (direction = ACROSS) then k else 0) in
  c ← index word k;
  grid_setitem letters i j c.

(** The body of the loop on the items of the assignment. *)
Definition write_word (letters : grid_t) (item : Var * string) : res grid_t :=
  foldlM (write_letter item.1 item.2) letters (seq 0 (String.length item.2)).

Definition letter_grid (width height : nat) (assignment : assignment_t)
    : res grid_t :=
  foldlM write_word (blank_grid width height) (map_to_list assignment).

(** The cell of the [k]th letter of a slot. *)
Definition cell (variable : Var) (k : nat) : nat * nat :=
  (var_i variable + (if decide (var_direction variable = DOWN) then k else 0),
   var_j variable + (if decide (var_direction variable = ACROSS) then k else 0)).
Arguments cell : simpl never.

(** The letter of a cell of the array, [None] for a blank cell and for a
    cell outside the array. *)
Definition grid_get (letters : grid_t) (i j : nat) : option ascii :=
  match letters !! i with
  | Some row => match row !! j with Some c => c | None => None end
  | None => None
  end.

(** An array of [height] rows of [width] cells. *)
Definition grid_shape (width height : nat) (letters : grid_t) : Prop :=
  length letters = height ∧ Forall (λ row, length row = width) letters.

(** The cells of a word for a slot all lie in the grid. *)
Definition fits (width height : nat) (variable : Var) (word : string) : Prop :=
  ∀ k, k < String.length word →
       (cell variable k).1 < height ∧ (cell variable k).2 < width.

(** What the loops have written so far, as a set of cells with letters. *)
Definition grid_records (W : nat → nat → ascii → Prop) (letters : grid_t) : Prop :=
  ∀ i j, (∀ c, grid_get letters i j = Some c → W i j c) ∧
         (grid_get letters i j = None → ∀ c, ¬ W i j c).

(** The two crossing slots with a word list that holds a word of two
    letters. *)
Definition cw_cat_at : Crossword :=
  mkCrossword {[slot_A; slot_B]} {["cat"; "at"]}%string overlaps_AB.

(** ** The error monad and its loops *)

Lemma bind_Ok {A B : Type} (m : res A) (f : A → res B) (b : B) :
  m ≫= f = Ok b ↔ ∃ a, m = Ok a ∧ f a = Ok b.
Proof.
  destruct m as [a|e]; simpl.
  - split; [eauto | by intros (? & [= <-] & ?)].
  - split; [done | by intros (? & ? & ?)].
Qed.

Lemma index_Ok (w : string) (k : nat) (c : ascii) :
  index w k = Ok c ↔ String.get k w = Some c.
Proof. unfold index. destruct (String.get k w); naive_solver. Qed.

Lemma get_is_Some (w : string) (k : nat) :
  k < String.length w → is_Some (String.get k w).
Proof.
  revert k. induction w as [|a w IH]; intros k Hk; simpl in *; [lia|].
  destruct k; [eauto | apply IH; lia].
Qed.

Lemma index_in_range (w : string) (k : nat) :
  k < String.length w → ∃ c, index w k = Ok c.
Proof.
  intros [c Hc]%get_is_Some. exists c. by apply index_Ok.
Qed.

Lemma getitem_Ok {V : Type} (d : gmap Var V) (k : Var) (v : V) :
  getitem d k = Ok v ↔ d !! k = Some v.
Proof. unfold getitem. destruct (d !! k); naive_solver. Qed.

Lemma subscript_Ok {A : Type} (t : option A) (p : A) :
  subscript t = Ok p ↔ t = Some p.
Proof. destruct t; naive_solver. Qed.

Lemma forallM_true {A : Type} (f : A → res bool) (l : list A) :
  forallM f l = Ok true ↔ ∀ a, a ∈ l → f a = Ok true.
Proof.
  induction l as [|a l IH]; simpl.
  - split; [intros _ a Ha; by apply elem_of_nil in Ha | done].
  - destruct (f a) as [[]|e] eqn:Hfa; simpl.
    + rewrite IH. split.
      * intros Hl a' [->|?]%elem_of_cons; auto.
      * intros Hl a' ?. apply Hl. by right.
    + split; [done|]. intros Hl. specialize (Hl a (list_elem_of_here _ _)). congruence.
    + split; [done|]. intros Hl. specialize (Hl a (list_elem_of_here _ _)). congruence.
Qed.

Lemma forallM_false {A : Type} (f : A → res bool) (l : list A) :
  forallM f l = Ok false → ∃ a, a ∈ l ∧ f a = Ok false.
Proof.
  induction l as [|a l IH]; simpl; [done|].
  destruct (f a) as [[]|e] eqn:Hfa; simpl; [|by exists a; split; [left|]|done].
  intros (a' & ? & ?)%IH. exists a'. split; [by right|done].
Qed.

Lemma forallM_total {A : Type} (f : A → res bool) (l : list A) :
  (∀ a, a ∈ l → ∃ b, f a = Ok b) → ∃ b, forallM f l = Ok b.
Proof.
  induction l as [|a l IH]; simpl; intros Hl; [eauto|].
  destruct (Hl a) as [[] ->]; [by left| |]; simpl; [|eauto].
  apply IH. intros a' ?. apply Hl. by right.
Qed.

Lemma forM_Ok {A B : Type} (f : A → res B) (l : list A) (bs : list B) :
  forM f l = Ok bs ↔ Forall2 (λ a b, f a = Ok b) l bs.
Proof.
  revert bs. induction l as [|a l IH]; intros bs; simpl.
  - split; [intros [= <-]; constructor | by intros ->%Forall2_nil_inv_l].
  - rewrite bind_Ok. split.
    + intros (b & Hb & (bs' & Hbs & [= <-])%bind_Ok).
      constructor; [done | by apply IH].
    + intros (b & bs' & Hb & Hbs & ->)%Forall2_cons_inv_l.
      exists b. split; [done|]. apply bind_Ok. exists bs'. by rewrite IH.
Qed.

Lemma forM_total {A B : Type} (f : A → res B) (l : list A) :
  (∀ a, a ∈ l → ∃ b, f a = Ok b) → ∃ bs, forM f l = Ok bs.
Proof.
  induction l as [|a l IH]; simpl; intros Hl; [eauto|].
  destruct (Hl a) as [b ->]; [by left|]. simpl.
  destruct IH as [bs ->]; [|simpl; eauto].
  intros a' ?. apply Hl. by right.
Qed.

Lemma foldlM_Raise {A B : Type} (f : B → A → res B) (b : B) (l : list A) (e : exn) :
  foldlM f b l = Raise e → ∃ b' a, a ∈ l ∧ f b' a = Raise e.
Proof.
  revert b. induction l as [|a l IH]; intros b; simpl; [done|].
  destruct (f b a) as [b'|e'] eqn:Hf; simpl.
  - intros (b'' & a' & ? & ?)%IH. exists b'', a'. split; [by right|done].
  - intros [= ->]. exists b, a. split; [by left|done].
Qed.

Lemma foldlM_total {A B : Type} (f : B → A → res B) (b : B) (l : list A) :
  (∀ b' a, a ∈ l → ∃ b'', f b' a = Ok b'') → ∃ b', foldlM f b l = Ok b'.
Proof.
  revert b. induction l as [|a l IH]; intros b Hl; simpl; [eauto|].
  destruct (Hl b a) as [b' ->]; [by left|]. simpl.
  apply IH. intros b'' a' ?. apply Hl. by right.
Qed.

(** ** [revise] *)

Section revise.
Context (cw : Crossword).
Implicit Types (domains : domains_t) (x y : Var) (dx dy w : string).

Lemma revise_inner_fold dx dx_c o_v2 (keep keep' : gset string) (l : list string) :
  foldlM (revise_inner dx dx_c o_v2) keep l = Ok keep' →
  ∀ w, w ∈ keep' ↔
    w ∈ keep ∨ (w = dx ∧ ∃ dy, dy ∈ l ∧ String.get o_v2 dy = Some dx_c ∧ dx ≠ dy).
Proof.
  revert keep. induction l as [|dy l IH]; intros keep; simpl.
  - intros [= <-] w. split; [auto|]. intros [?|(_ & dy & []%elem_of_nil & _)]; done.
  - intros (k & (dy_c & Hdy%index_Ok & [= <-])%bind_Ok & Hl)%bind_Ok w.
    rewrite (IH _ Hl). case_bool_decide as Hc.
    + destruct Hc as [<- ?]. rewrite elem_of_union, elem_of_singleton. split.
      * intros [[?| ->]|(-> & dy' & ? & ?)]; [by left| |].
        -- right. split; [done|]. exists dy. split; [by left|done].
        -- right. split; [done|]. exists dy'. split; [by right|done].
      * intros [?|(-> & dy' & [->|?]%elem_of_cons & ?)]; [by left;left|by left;right|].
        right. split; [done|]. by exists dy'.
    + split.
      * intros [?|(-> & dy' & ? & ?)]; [by left|].
        right. split; [done|]. exists dy'. split; [by right|done].
      * intros [?|(-> & dy' & [->|?]%elem_of_cons & Hget & ?)]; [by left| |].
        -- destruct Hc. split; [congruence|done].
        -- right. split; [done|]. by exists dy'.
Qed.

Lemma revise_outer_fold domains y o_v1 o_v2 (keep keep' : gset string)
    (l : list string) :
  foldlM (revise_outer domains y o_v1 o_v2) keep l = Ok keep' →
  ∀ w, w ∈ keep' ↔
    w ∈ keep ∨
    (w ∈ l ∧ ∃ dom_y wy, domains !! y = Some dom_y ∧ wy ∈ dom_y ∧
                         agree o_v1 o_v2 w wy ∧ w ≠ wy).
Proof.
  revert keep. induction l as [|dx l IH]; intros keep; simpl.
  - intros [= <-] w. split; [auto|]. intros [?|([]%elem_of_nil & _)]; done.
  - intros (k & Hdx & Hl)%bind_Ok w.
    apply bind_Ok in Hdx as (dx_c & Hdx_c%index_Ok & Hdx).
    apply bind_Ok in Hdx as (dom_y & Hy%getitem_Ok & Hin).
    rewrite (IH _ Hl), (revise_inner_fold _ _ _ _ _ _ Hin). split.
    + intros [[?|(-> & dy & Hdy%elem_of_elements & Hget & ?)]|(? & ?)].
      * by left.
      * right. split; [by left|]. exists dom_y, dy. repeat split; try done.
        by exists dx_c.
      * right. split; [by right|done].
    + intros [?|([->|?]%elem_of_cons & Hsup)]; [by left;left| |by right].
      left. right. split; [done|].
      destruct Hsup as (dom_y' & wy & Hy' & Hwy & (c & Hc1 & Hc2) & ?).
      exists wy. assert (dom_y' = dom_y) as -> by congruence.
      split; [by apply elem_of_elements|]. split; [congruence|done].
Qed.

(** What a call of [revise] that returns has done. *)
Lemma revise_Ok x y domains revised domains' :
  revise cw x y domains = Ok (revised, domains') →
  ∃ o_v1 o_v2 dom_x (keep : gset string),
    overlaps cw x y = Some (o_v1, o_v2) ∧ domains !! x = Some dom_x ∧
    (∀ w, w ∈ keep ↔ w ∈ dom_x ∧ supported cw domains x y w) ∧
    ((keep ≠ ∅ ∧ domains' = <[x := keep]> domains ∧
      revised = bool_decide (keep ≠ dom_x)) ∨
     (keep = ∅ ∧ domains' = domains ∧ revised = false)).
Proof.
  unfold revise. destruct (overlaps cw x y) as [[o_v1 o_v2]|] eqn:Hov; [|done].
  simpl.
  intros (dom_x & Hx%getitem_Ok & (keep & Hkeep & Hret)%bind_Ok)%bind_Ok.
  exists o_v1, o_v2, dom_x, keep. split; [done|]. split; [done|].
  pose proof (revise_outer_fold _ _ _ _ _ _ _ Hkeep) as Hk. split.
  - intros w. rewrite Hk, elem_of_empty, elem_of_elements. split.
    + intros [[]|(? & dom_y & wy & ? & ? & ? & ?)]. split; [done|].
      by exists o_v1, o_v2, dom_y, wy.
    + intros (? & i & j & dom_y & wy & Hov' & ? & ? & ? & ?). right.
      split; [done|]. rewrite Hov in Hov'. injection Hov' as <- <-. by exists dom_y, wy.
  - unfold mret, res_ret in Hret. destruct (decide (keep = ∅)) as [Hemp|Hne].
    + rewrite bool_decide_false in Hret by (by intros []). right. by simplify_eq.
    + rewrite bool_decide_true in Hret by done. left. by simplify_eq.
Qed.

(** A subscript of [None] is the only [TypeError] of [revise], and it is
    raised whenever the two slots have no overlap. *)
Lemma revise_no_overlap x y domains :
  overlaps cw x y = None → revise cw x y domains = Raise TypeError.
Proof. unfold revise. by intros ->. Qed.

Lemma revise_TypeError x y domains :
  revise cw x y domains = Raise TypeError → overlaps cw x y = None.
Proof.
  unfold revise. destruct (overlaps cw x y) as [[o_v1 o_v2]|] eqn:Hov; [|done].
  simpl.
  unfold getitem at 1. destruct (domains !! x) as [dom_x|]; [simpl|done].
  destruct (foldlM _ _ _) as [keep|e] eqn:Hk; simpl; [by case_bool_decide|].
  intros [= ->]. apply foldlM_Raise in Hk as (k & dx & _ & Hk).
  unfold revise_outer in Hk.
  unfold index in Hk. destruct (String.get o_v1 dx); [simpl in Hk|done].
  unfold getitem in Hk. destruct (domains !! y); [simpl in Hk|done].
  apply foldlM_Raise in Hk as (k' & dy & _ & Hk).
  unfold revise_inner, index in Hk. by destruct (String.get o_v2 dy).
Qed.

(** [revise] returns when the overlap is defined, both slots are in the
    store and the overlap falls inside their words. *)
Lemma revise_total x y domains o_v1 o_v2 dom_x dom_y :
  overlaps cw x y = Some (o_v1, o_v2) →
  domains !! x = Some dom_x → domains !! y = Some dom_y →
  (∀ w, w ∈ dom_x → o_v1 < String.length w) →
  (∀ w, w ∈ dom_y → o_v2 < String.length w) →
  ∃ r, revise cw x y domains = Ok r.
Proof.
  intros Hov Hx Hy Hlx Hly. unfold revise. rewrite Hov. simpl.
  apply getitem_Ok in Hx as ->. simpl.
  destruct (foldlM_total (revise_outer domains y o_v1 o_v2) ∅ (elements dom_x))
    as [keep ->]; [|simpl; case_bool_decide; eauto].
  intros k dx Hdx%elem_of_elements. unfold revise_outer.
  destruct (index_in_range dx o_v1) as [c ->]; [by apply Hlx|]. simpl.
  apply getitem_Ok in Hy as ->. simpl.
  apply foldlM_total. intros k' dy Hdy%elem_of_elements. unfold revise_inner.
  destruct (index_in_range dy o_v2) as [c' ->]; [by apply Hly|]. simpl. eauto.
Qed.
End revise.

(** ** [ac3]: termination *)

Section ac3_termination.
Context (cw : Crossword).
Implicit Types (domains : domains_t) (x y : Var) (queue : list (Var * Var)).

Lemma total_size_insert domains x (dom_x keep : gset string) :
  domains !! x = Some dom_x →
  total_size (<[x := keep]> domains) + size dom_x = total_size domains + size keep.
Proof.
  intros Hx. unfold total_size.
  rewrite <-(insert_delete_id domains x dom_x) at 2 by done.
  rewrite <-(insert_delete_eq domains x keep).
  rewrite !map_to_list_insert by apply lookup_delete_eq.
  simpl. lia.
Qed.

Lemma neighbors_subseteq x : neighbors cw x ⊆ variables cw.
Proof. unfold neighbors. intros y [_ ?]%elem_of_filter. done. Qed.

Lemma elem_of_neighbors x y :
  y ∈ neighbors cw x ↔ is_Some (overlaps cw x y) ∧ y ∈ variables cw.
Proof. unfold neighbors. by rewrite elem_of_filter. Qed.

(** A revision that reports a change made the store smaller and left a
    word in the domain; one that reports none left the store as it was. *)
Lemma revise_true x y domains domains' :
  revise cw x y domains = Ok (true, domains') →
  total_size domains' < total_size domains ∧
  ∃ keep : gset string, domains' !! x = Some keep ∧ keep ≠ ∅.
Proof.
  intros (o_v1 & o_v2 & dom_x & keep & _ & Hx & Hkeep & Hcase)%revise_Ok.
  destruct Hcase as [(Hne & -> & Hrev)|(_ & _ & ?)]; [|done].
  symmetry in Hrev. apply bool_decide_eq_true in Hrev. split.
  - pose proof (total_size_insert domains x dom_x keep Hx).
    assert (size keep < size dom_x); [|lia].
    apply subset_size. split; [intros w; rewrite Hkeep; tauto|].
    intros Hsub. apply Hrev. apply set_eq. intros w. split; [|apply Hsub].
    rewrite Hkeep. tauto.
  - exists keep. by rewrite lookup_insert_eq.
Qed.

Lemma revise_false x y domains domains' :
  revise cw x y domains = Ok (false, domains') → domains' = domains.
Proof.
  intros (o_v1 & o_v2 & dom_x & keep & _ & Hx & Hkeep & Hcase)%revise_Ok.
  destruct Hcase as [(Hne & -> & Hrev)|(_ & ? & _)]; [|done].
  symmetry in Hrev. apply bool_decide_eq_false in Hrev.
  apply dec_stable in Hrev as ->. by apply insert_id.
Qed.

Lemma ac3_step_decreases queue domains queue' domains' :
  ac3_step cw queue domains = Continue queue' domains' →
  length queue' + size (variables cw) * total_size domains' <
  length queue + size (variables cw) * total_size domains.
Proof.
  unfold ac3_step. destruct queue as [|[x y] queue]; [done|].
  destruct (revise cw x y domains) as [[[] d]|e] eqn:Hrev; [| |done].
  - apply revise_true in Hrev as [Hlt _].
    destruct (getitem d x) as [dom_x|]; [|done].
    case_bool_decide; [done|]. intros [= <- <-].
    rewrite length_app, length_fmap. simpl.
    assert (length (elements (neighbors cw x ∖ {[y]})) ≤ size (variables cw)).
    { apply (subseteq_size (neighbors cw x ∖ {[y]})).
      pose proof (neighbors_subseteq x). set_solver. }
    nia.
  - apply revise_false in Hrev as ->. intros [= <- <-]. simpl. lia.
Qed.

Lemma ac3_loop_terminates fuel queue domains :
  length queue + size (variables cw) * total_size domains < fuel →
  ∃ r, ac3_loop cw fuel queue domains = Some r.
Proof.
  revert queue domains. induction fuel as [|fuel IH]; intros queue domains Hlt;
    [lia|]. simpl.
  destruct (ac3_step cw queue domains) as [r|queue' domains'] eqn:Hstep; [eauto|].
  apply IH. apply ac3_step_decreases in Hstep. lia.
Qed.

(** More fuel than needed changes nothing. *)
Lemma ac3_loop_mono fuel fuel' queue domains r :
  ac3_loop cw fuel queue domains = Some r → fuel ≤ fuel' →
  ac3_loop cw fuel' queue domains = Some r.
Proof.
  revert fuel' queue domains. induction fuel as [|fuel IH];
    intros fuel' queue domains; [done|].
  intros Hr Hle. destruct fuel' as [|fuel']; [lia|]. simpl in *.
  destruct (ac3_step cw queue domains); [done|]. apply IH; [done|lia].
Qed.

(** [False] is returned only behind the test for an empty domain. *)
Lemma ac3_loop_false fuel queue domains domains' :
  ac3_loop cw fuel queue domains = Some (Ok (false, domains')) →
  ∃ x, domains' !! x = Some ∅.
Proof.
  revert queue domains. induction fuel as [|fuel IH]; intros queue domains;
    [done|]. simpl.
  destruct (ac3_step cw queue domains) as [r|queue' domains''] eqn:Hstep;
    [|apply IH].
  intros [= ->]. unfold ac3_step in Hstep.
  destruct queue as [|[x y] queue]; [done|].
  destruct (revise cw x y domains) as [[[] d]|e]; [|done|done].
  destruct (getitem d x) as [dom_x|] eqn:Hx; [|done].
  case_bool_decide as Hsize; [|done]. simplify_eq.
  exists x. apply getitem_Ok in Hx. rewrite Hx. f_equal.
  by apply leibniz_equiv, size_empty_inv.
Qed.

(** In fact that test never succeeds: [revise] reports a change only when
    it has stored a set with a word in it. *)
Lemma ac3_loop_never_false fuel queue domains domains' :
  ac3_loop cw fuel queue domains ≠ Some (Ok (false, domains')).
Proof.
  revert queue domains. induction fuel as [|fuel IH]; intros queue domains;
    [done|]. simpl.
  destruct (ac3_step cw queue domains) as [r|queue' domains''] eqn:Hstep;
    [|apply IH].
  intros [= ->]. unfold ac3_step in Hstep.
  destruct queue as [|[x y] queue]; [done|].
  destruct (revise cw x y domains) as [[[] d]|e] eqn:Hrev; [|done|done].
  apply revise_true in Hrev as (_ & keep & Hk & Hne).
  apply getitem_Ok in Hk. rewrite Hk in Hstep.
  case_bool_decide as Hsize; [|done].
  apply size_empty_inv, leibniz_equiv in Hsize. done.
Qed.
End ac3_termination.

(** ** Well-formed puzzles and stores *)

Section wf.
Context (cw : Crossword).
Implicit Types (domains : domains_t) (x y : Var) (queue : list (Var * Var)).

Lemma wf_crossword_check : wf_crossword_b cw = true → wf_crossword cw.
Proof.
  unfold wf_crossword_b, wf_crossword. rewrite forallb_forall.
  intros Hall x y Hx%elem_of_elements%list_elem_of_In Hy%elem_of_elements%list_elem_of_In.
  specialize (Hall x Hx). rewrite forallb_forall in Hall. by apply Hall.
Qed.

Lemma wf_pair_Some x y i j :
  wf_pair cw x y = true → overlaps cw x y = Some (i, j) →
  i < var_length x ∧ j < var_length y ∧ overlaps cw y x = Some (j, i).
Proof.
  unfold wf_pair. intros Hwf Hov. rewrite Hov in Hwf.
  apply andb_true_iff in Hwf as [[? ?]%andb_true_iff ?].
  by repeat split; eapply bool_decide_eq_true_1.
Qed.

Lemma wf_neighbors_sym x y :
  wf_crossword cw → x ∈ variables cw → y ∈ neighbors cw x → x ∈ neighbors cw y.
Proof.
  intros Hwf Hx [[[i j] Hov] Hy]%elem_of_neighbors. apply elem_of_neighbors.
  split; [|done]. destruct (wf_pair_Some x y i j) as (_ & _ & ->); eauto.
Qed.

Lemma enforce_node_consistency_lookup domains x :
  enforce_node_consistency domains !! x =
  filter (λ d, String.length d = var_length x) <$> domains !! x.
Proof.
  unfold enforce_node_consistency. rewrite map_lookup_imap.
  by destruct (domains !! x).
Qed.

Lemma node_domains_lookup x :
  node_domains cw !! x =
  if decide (x ∈ variables cw)
  then Some (filter (λ d, String.length d = var_length x) (words cw))
  else None.
Proof.
  unfold node_domains, init_domains.
  rewrite enforce_node_consistency_lookup, lookup_gset_to_gmap.
  by case_decide; simplify_option_eq.
Qed.

(** Node consistency: after the pass every word is as long as its slot. *)
Lemma node_domains_ok : store_ok cw (node_domains cw).
Proof.
  split.
  - intros x dom_x w. rewrite node_domains_lookup. case_decide; [|done].
    intros [= <-]. by intros [? _]%elem_of_filter.
  - apply set_eq. intros x. rewrite elem_of_dom, node_domains_lookup.
    case_decide; [split; eauto | split; [by intros [] | done]].
Qed.

Lemma shrinks_refl domains : shrinks domains domains.
Proof. intros x d ?. by exists d. Qed.

Lemma shrinks_trans domains1 domains2 domains3 :
  shrinks domains1 domains2 → shrinks domains2 domains3 →
  shrinks domains1 domains3.
Proof.
  intros H12 H23 x d3 (d2 & (d1 & ? & ?)%H12 & ?)%H23.
  exists d1. split; [done|]. set_solver.
Qed.

Lemma revise_shrinks x y domains revised domains' :
  revise cw x y domains = Ok (revised, domains') →
  dom domains' = dom domains ∧ shrinks domains domains'.
Proof.
  intros (o_v1 & o_v2 & dom_x & keep & _ & Hx & Hkeep & Hcase)%revise_Ok.
  destruct Hcase as [(_ & -> & _)|(_ & -> & _)]; [|split; [done|apply shrinks_refl]].
  split.
  - rewrite dom_insert_L. apply elem_of_dom_2 in Hx. set_solver.
  - intros x' d'. destruct (decide (x' = x)) as [->|].
    + rewrite lookup_insert_eq. intros [= <-]. exists dom_x. split; [done|].
      intros w. rewrite Hkeep. tauto.
    + rewrite lookup_insert_ne by done. intros ?. by exists d'.
Qed.

Lemma store_ok_shrinks domains domains' :
  store_ok cw domains → dom domains' = dom domains → shrinks domains domains' →
  store_ok cw domains'.
Proof.
  intros [Hnode Hdom] Hdom' Hshr. split; [|congruence].
  intros x d' w (d & ? & ?)%Hshr ?. apply (Hnode x d); [done|set_solver].
Qed.

Lemma store_ok_lookup domains x :
  store_ok cw domains → x ∈ variables cw → ∃ dom_x, domains !! x = Some dom_x.
Proof. intros [_ <-] ?. by apply elem_of_dom. Qed.

(** On a well-formed puzzle and store [revise] returns for every pair of
    slots that has an overlap. *)
Lemma revise_total_ok x y domains :
  wf_crossword cw → store_ok cw domains →
  x ∈ variables cw → y ∈ variables cw → is_Some (overlaps cw x y) →
  ∃ revised domains', revise cw x y domains = Ok (revised, domains').
Proof.
  intros Hwf Hok Hx Hy [[i j] Hov].
  destruct (store_ok_lookup domains x) as [dom_x Hdx]; [done..|].
  destruct (store_ok_lookup domains y) as [dom_y Hdy]; [done..|].
  destruct (wf_pair_Some x y i j) as (Hi & Hj & _); [by apply Hwf|done|].
  destruct (revise_total cw x y domains i j dom_x dom_y) as [[r d] Hr];
    [done..| | |eauto].
  - intros w Hw. destruct Hok as [Hnode _]. by rewrite (Hnode x dom_x w).
  - intros w Hw. destruct Hok as [Hnode _]. by rewrite (Hnode y dom_y w).
Qed.

(** A turn of the loop on a well-formed puzzle and store: it ends the loop
    with [True] on the empty queue, raises [TypeError] on a pair without
    overlap, and otherwise goes on, with the rest of the queue and a store
    that is still well formed. *)
Lemma ac3_step_ok queue domains :
  wf_crossword cw → store_ok cw domains → known_arcs cw queue →
  match ac3_step cw queue domains with
  | Return (Ok (true, domains')) => queue = [] ∧ domains' = domains
  | Return (Ok (false, _)) => False
  | Return (Raise e) =>
    e = TypeError ∧ ∃ x y queue', queue = (x, y) :: queue' ∧ overlaps cw x y = None
  | Continue queue' domains' =>
    store_ok cw domains' ∧ shrinks domains domains' ∧
    ∃ x y rest, queue = (x, y) :: rest ∧ is_Some (overlaps cw x y) ∧
      ((queue' = rest ∧ domains' = domains) ∨
       queue' = rest ++ ((λ z, (z, x)) <$> elements (neighbors cw x ∖ {[y]})))
  end.
Proof.
  intros Hwf Hok Hq. unfold ac3_step. destruct queue as [|[x y] rest]; [done|].
  destruct (Hq x y) as [Hx Hy]; [by left|].
  destruct (overlaps cw x y) as [[i j]|] eqn:Hov.
  - destruct (revise_total_ok x y domains) as (revised & d' & Hrev);
      [by rewrite ?Hov..|]. rewrite Hrev.
    destruct (revise_shrinks _ _ _ _ _ Hrev) as [Hdom Hshr].
    destruct revised.
    + apply revise_true in Hrev as (_ & keep & Hk & Hne).
      apply getitem_Ok in Hk as Hk'. rewrite Hk'.
      rewrite bool_decide_false.
      2:{ intros ?%size_empty_inv%leibniz_equiv. done. }
      split; [by eapply store_ok_shrinks|]. split; [done|].
      exists x, y, rest. rewrite Hov. eauto.
    + apply revise_false in Hrev as ->. split; [done|].
      split; [apply shrinks_refl|]. exists x, y, rest. rewrite Hov. eauto.
  - rewrite revise_no_overlap by done. split; [done|]. by exists x, y, rest.
Qed.
End wf.

(** ** [ac3]: the arcs of the queue, and what a run removes *)

Section ac3_run.
Context (cw : Crossword).
Implicit Types (domains : domains_t) (x y : Var) (queue : list (Var * Var)).

Lemma neighbor_arcs_known queue : neighbor_arcs cw queue → known_arcs cw queue.
Proof.
  intros Hq x y [? ?%neighbors_subseteq]%Hq. done.
Qed.

Lemma elem_of_all_arcs domains x y :
  (x, y) ∈ all_arcs cw domains ↔ x ∈ dom domains ∧ y ∈ neighbors cw x.
Proof.
  unfold all_arcs. rewrite list_elem_of_bind. split.
  - intros (var & (n & [= -> ->]%list_elem_of_singleton & Hn%elem_of_elements)%list_elem_of_bind & Hvar).
    split; [|done]. apply list_elem_of_fmap in Hvar as ([k d] & -> & Hkd).
    apply elem_of_map_to_list in Hkd. by apply elem_of_dom_2 in Hkd.
  - intros [[d Hd]%elem_of_dom Hy]. exists x. split.
    + apply list_elem_of_bind. exists y. split; [by left|]. by apply elem_of_elements.
    + apply list_elem_of_fmap. exists (x, d). split; [done|].
      by apply elem_of_map_to_list.
Qed.

Lemma all_arcs_neighbor_arcs domains :
  dom domains ⊆ variables cw → neighbor_arcs cw (all_arcs cw domains).
Proof.
  intros Hdom x y [? ?]%elem_of_all_arcs. split; [by apply Hdom|done].
Qed.

(** The arcs a turn appends pair a neighbour of [x] with [x]; on a
    well-formed puzzle [x] is a neighbour of each of them. *)
Lemma ac3_step_neighbor_arcs queue domains queue' domains' :
  wf_crossword cw → neighbor_arcs cw queue →
  ac3_step cw queue domains = Continue queue' domains' →
  neighbor_arcs cw queue'.
Proof.
  intros Hwf Hq. unfold ac3_step. destruct queue as [|[x y] rest]; [done|].
  assert (neighbor_arcs cw rest) as Hrest.
  { intros a b ?. apply Hq. by right. }
  destruct (Hq x y) as [Hx _]; [by left|].
  destruct (revise cw x y domains) as [[[] d]|e]; [| |done].
  - destruct (getitem d x); [|done]. case_bool_decide; [done|].
    intros [= <- <-] a' b' [?|Hab]%elem_of_app; [by apply Hrest|].
    apply list_elem_of_fmap in Hab as (z & [= -> ->] & Hz%elem_of_elements).
    apply elem_of_difference in Hz as [Hz _].
    split; [by apply neighbors_subseteq in Hz|by apply wf_neighbors_sym].
  - by intros [= <- <-].
Qed.

Lemma ac3_reach_neighbor_arcs (s s' : list (Var * Var) * domains_t) :
  wf_crossword cw → rtc (ac3_next cw) s s' →
  neighbor_arcs cw s.1 → neighbor_arcs cw s'.1.
Proof.
  intros Hwf. induction 1 as [|s1 s2 s3 Hstep _ IH]; [done|].
  intros Hq. apply IH. by eapply ac3_step_neighbor_arcs.
Qed.

(** The loop follows the transitions. *)
Lemma ac3_loop_next fuel queue domains queue' domains' :
  ac3_next cw (queue, domains) (queue', domains') →
  ac3_loop cw (S fuel) queue domains = ac3_loop cw fuel queue' domains'.
Proof. unfold ac3_next. simpl. by intros ->. Qed.

Lemma ac3_loop_TypeError fuel queue domains :
  ac3_loop cw fuel queue domains = Some (Raise TypeError) →
  ∃ x y rest domains',
    rtc (ac3_next cw) (queue, domains) ((x, y) :: rest, domains') ∧
    overlaps cw x y = None.
Proof.
  revert queue domains. induction fuel as [|fuel IH]; intros queue domains;
    [done|]. simpl.
  destruct (ac3_step cw queue domains) as [r|queue' domains'] eqn:Hstep.
  - intros [= ->]. unfold ac3_step in Hstep.
    destruct queue as [|[x y] rest]; [done|]. exists x, y, rest, domains.
    split; [done|].
    destruct (revise cw x y domains) as [[[] d]|e] eqn:Hrev.
    + destruct (getitem d x) as [|e] eqn:Hd; [by case_bool_decide|].
      injection Hstep as ->. unfold getitem in Hd. by destruct (d !! x).
    + done.
    + injection Hstep as ->. by apply revise_TypeError in Hrev.
  - intros (x & y & rest & d & Hrtc & Hov)%IH. exists x, y, rest, d.
    split; [|done]. eapply rtc_l; [|done]. by unfold ac3_next.
Qed.

(** What one call of [revise] takes out of the domain of [x] had no
    support in the domain of [y]. *)
Lemma revise_removes x y domains revised domains' x' dom_x dom_x' w :
  revise cw x y domains = Ok (revised, domains') →
  domains !! x' = Some dom_x → domains' !! x' = Some dom_x' →
  w ∈ dom_x → w ∉ dom_x' →
  x' = x ∧ ¬ supported cw domains x y w.
Proof.
  intros (o_v1 & o_v2 & d & keep & _ & Hx & Hkeep & Hcase)%revise_Ok Hd Hd' Hw Hw'.
  destruct Hcase as [(_ & -> & _)|(_ & -> & _)]; [|congruence].
  destruct (decide (x' = x)) as [->|]; [|rewrite lookup_insert_ne in Hd' by done; congruence].
  rewrite lookup_insert_eq in Hd'. simplify_eq. split; [done|].
  intros Hsup. apply Hw', Hkeep. done.
Qed.
End ac3_run.

(** ** [ac3]: the claims *)

Section ac3_claims.
Context (cw : Crossword).
Implicit Types (domains : domains_t) (x y : Var) (queue : list (Var * Var)).

(** C7: [ac3] terminates on every store and every initial list of arcs,
    the default one included: the loop ends within [ac3_fuel] turns, with
    a value or with an exception.  When the value is [False], some domain
    of the store it leaves is empty. *)
Theorem ac3_terminates (arcs : option (list (Var * Var))) domains :
  ∃ r,
    ac3 cw (ac3_fuel cw (default (all_arcs cw domains) arcs) domains)
        arcs domains = Some r ∧
    ∀ domains', r = Ok (false, domains') → ∃ x, domains' !! x = Some ∅.
Proof.
  unfold ac3, ac3_fuel.
  destruct (ac3_loop_terminates cw
    (S (length (default (all_arcs cw domains) arcs) +
        size (variables cw) * total_size domains))
    (default (all_arcs cw domains) arcs) domains) as [r Hr]; [lia|].
  exists r. split; [done|]. intros domains' ->. by eapply ac3_loop_false.
Qed.

Lemma known_arcs_step x y rest :
  known_arcs cw ((x, y) :: rest) →
  known_arcs cw (rest ++ ((λ z, (z, x)) <$> elements (neighbors cw x ∖ {[y]}))).
Proof.
  intros Hq a b [?|Hab]%elem_of_app; [apply Hq; by right|].
  apply list_elem_of_fmap in Hab as (z & [= -> ->] & Hz%elem_of_elements).
  apply elem_of_difference in Hz as [Hz%neighbors_subseteq _].
  split; [done|]. destruct (Hq x y); [by left|done].
Qed.

(** A queue that holds a pair of slots without overlap ends in the
    [TypeError] of [revise]. *)
Lemma ac3_loop_bad_arc fuel queue domains x y :
  wf_crossword cw → store_ok cw domains → known_arcs cw queue →
  (x, y) ∈ queue → overlaps cw x y = None →
  length queue + size (variables cw) * total_size domains < fuel →
  ac3_loop cw fuel queue domains = Some (Raise TypeError).
Proof.
  intros Hwf. revert queue domains.
  induction fuel as [|fuel IH]; intros queue domains Hok Hq Hxy Hov Hlt; [lia|].
  simpl. pose proof (ac3_step_ok cw queue domains Hwf Hok Hq) as Hstep.
  destruct (ac3_step cw queue domains) as [[[[] d]|e]|queue' d] eqn:Heq.
  - destruct Hstep as [-> _]. by apply elem_of_nil in Hxy.
  - done.
  - by destruct Hstep as [-> _].
  - destruct Hstep as (Hok' & _ & a & b & rest & -> & Hab & Hcase).
    apply ac3_step_decreases in Heq.
    apply elem_of_cons in Hxy as [[= -> ->]|Hxy].
    { rewrite Hov in Hab. by destruct Hab. }
    destruct Hcase as [[-> ->]| ->].
    + apply IH; [done| |done..|lia]. intros a' b' ?. apply Hq. by right.
    + apply IH; [done|by apply known_arcs_step| |done|lia].
      apply elem_of_app. by left.
Qed.

(** With the default arcs a well-formed puzzle and store give [True] and
    a store that is still well formed, each domain part of what it was. *)
Lemma ac3_loop_ok fuel queue domains r :
  wf_crossword cw → store_ok cw domains → neighbor_arcs cw queue →
  ac3_loop cw fuel queue domains = Some r →
  ∃ domains', r = Ok (true, domains') ∧ store_ok cw domains' ∧
              shrinks domains domains'.
Proof.
  intros Hwf. revert queue domains.
  induction fuel as [|fuel IH]; intros queue domains Hok Hq; [done|].
  simpl.
  pose proof (ac3_step_ok cw queue domains Hwf Hok (neighbor_arcs_known cw _ Hq))
    as Hstep.
  destruct (ac3_step cw queue domains) as [[[[] d]|e]|queue' d] eqn:Heq.
  - destruct Hstep as [_ ->]. intros [= <-]. exists domains.
    split; [done|]. split; [done|apply shrinks_refl].
  - done.
  - destruct Hstep as (_ & a & b & rest & -> & Hov).
    destruct (Hq a b) as [_ [Hsome _]%elem_of_neighbors]; [by left|].
    rewrite Hov in Hsome. by destruct Hsome.
  - destruct Hstep as (Hok' & Hshr & _).
    intros (d' & -> & ? & ?)%IH; [|done|by eapply ac3_step_neighbor_arcs].
    exists d'. split; [done|]. split; [done|by eapply shrinks_trans].
Qed.

(** C10: [revise] subscripts the overlap before it tests it for [None]:
    it raises [TypeError] exactly on the pairs of slots without overlap,
    and so returns only on pairs that have one.  On a well-formed puzzle
    and store every arc that a run of [ac3] from the default arcs has in
    its queue pairs a slot with one of its neighbours, and the run never
    raises [TypeError]; a list of arcs given by the caller that holds a
    pair without overlap ends in that [TypeError]. *)
Theorem revise_overlap_access domains
    (Hwf : wf_crossword cw) (Hok : store_ok cw domains) :
  (∀ x y d, revise cw x y d = Raise TypeError ↔ overlaps cw x y = None) ∧
  (∀ x y d r, revise cw x y d = Ok r → is_Some (overlaps cw x y)) ∧
  (∀ queue d,
      rtc (ac3_next cw) (all_arcs cw domains, domains) (queue, d) →
      neighbor_arcs cw queue) ∧
  (∀ fuel, ac3 cw fuel None domains ≠ Some (Raise TypeError)) ∧
  (∀ arcs x y,
      known_arcs cw arcs → (x, y) ∈ arcs → overlaps cw x y = None →
      ac3 cw (ac3_fuel cw arcs domains) (Some arcs) domains =
      Some (Raise TypeError)).
Proof.
  assert (dom domains ⊆ variables cw) as Hdom by (by destruct Hok as [_ ->]).
  split_and!.
  - intros x y d. split; [apply revise_TypeError|apply revise_no_overlap].
  - intros x y d [revised d'] (i & j & _ & _ & -> & _)%revise_Ok. eauto.
  - intros queue d Hreach.
    apply (ac3_reach_neighbor_arcs cw _ _ Hwf Hreach).
    by apply all_arcs_neighbor_arcs.
  - intros fuel (x & y & rest & d & Hreach & Hov)%ac3_loop_TypeError.
    apply (ac3_reach_neighbor_arcs cw _ _ Hwf) in Hreach;
      [|by apply all_arcs_neighbor_arcs].
    destruct (Hreach x y) as [_ [Hsome _]%elem_of_neighbors]; [by left|].
    rewrite Hov in Hsome. by destruct Hsome.
  - intros arcs x y Hq Hxy Hov. unfold ac3, ac3_fuel.
    apply (ac3_loop_bad_arc _ _ _ x y); [done..|]. simpl. lia.
Qed.

(** C6: [ac3] is sound.  At any turn of a run from the default arcs, a
    word that the turn takes out of the domain of a slot [x] has no
    support, in the store of that moment, in the domain of some neighbour
    of [x]; a word with a support in the domain of every neighbour stays. *)
Theorem ac3_sound domains queue d x (dom_x dom_x' : gset string) w
    (Hwf : wf_crossword cw) (Hdom : dom domains ⊆ variables cw)
    (Hreach : rtc (ac3_next cw) (all_arcs cw domains, domains) (queue, d))
    (Hbefore : d !! x = Some dom_x) (Hw : w ∈ dom_x)
    (Hafter : store_after d (ac3_step cw queue d) !! x = Some dom_x') :
  (w ∉ dom_x' → ∃ y, y ∈ neighbors cw x ∧ ¬ supported cw d x y w) ∧
  ((∀ y, y ∈ neighbors cw x → supported cw d x y w) → w ∈ dom_x').
Proof.
  assert (w ∉ dom_x' → ∃ y, y ∈ neighbors cw x ∧ ¬ supported cw d x y w) as Hrem.
  { intros Hw'.
    apply (ac3_reach_neighbor_arcs cw _ _ Hwf) in Hreach;
      [|by apply all_arcs_neighbor_arcs]. simpl in Hreach.
    unfold ac3_step in Hafter. destruct queue as [|[a b] rest].
    { simpl in Hafter. congruence. }
    destruct (Hreach a b) as [_ Hb]; [by left|].
    destruct (revise cw a b d) as [[revised d1]|e] eqn:Hrev;
      [|simpl in Hafter; congruence].
    assert (d1 !! x = Some dom_x' → ∃ y, y ∈ neighbors cw x ∧ ¬ supported cw d x y w)
      as Hd1.
    { intros Hx'.
      destruct (revise_removes cw _ _ _ _ _ _ _ _ _ Hrev Hbefore Hx' Hw Hw')
        as [-> ?]. by exists b. }
    destruct revised; [|by apply Hd1].
    destruct (getitem d1 a); [|simpl in Hafter; congruence].
    case_bool_decide; by apply Hd1. }
  split; [done|]. intros Hall.
  destruct (decide (w ∈ dom_x')) as [|Hnot]; [done|].
  destruct (Hrem Hnot) as (y & Hy & Hsup). destruct Hsup. by apply Hall.
Qed.
End ac3_claims.

Lemma wf_cat_ten : wf_crossword cw_cat_ten.
Proof. apply wf_crossword_check. reflexivity. Qed.

Lemma ac3_sound_witness :
  ∃ y, y ∈ neighbors cw_cat_ten slot_A ∧
       ¬ supported cw_cat_ten (node_domains cw_cat_ten) slot_A y "ace".
Proof.
  apply (ac3_sound cw_cat_ten (node_domains cw_cat_ten)
           (all_arcs cw_cat_ten (node_domains cw_cat_ten))
           (node_domains cw_cat_ten) slot_A
           {["cat"; "ten"; "ace"]}%string {["cat"]}%string "ace").
  - exact wf_cat_ten.
  - by destruct (node_domains_ok cw_cat_ten) as [_ ->].
  - apply rtc_refl.
  - reflexivity.
  - set_solver.
  - reflexivity.
  - rewrite elem_of_singleton. discriminate.
Defined.

Lemma revise_overlap_access_witness :
  ac3 cw_cat_ten
      (ac3_fuel cw_cat_ten [(slot_A, slot_B); (slot_A, slot_A)]
                (node_domains cw_cat_ten))
      (Some [(slot_A, slot_B); (slot_A, slot_A)]) (node_domains cw_cat_ten) =
  Some (Raise TypeError).
Proof.
  apply (revise_overlap_access cw_cat_ten (node_domains cw_cat_ten) wf_cat_ten
           (node_domains_ok cw_cat_ten)) with (x := slot_A) (y := slot_A).
  - intros x y. rewrite !elem_of_cons, elem_of_nil. simpl.
    intros [[= -> ->]|[[= -> ->]|[]]]; set_solver.
  - set_solver.
  - reflexivity.
Defined.

(** ** [revise] and [ac3] on a puzzle without any matching pair *)

Lemma cat_dog_domains (x : Var) :
  x = slot_A ∨ x = slot_B →
  node_domains cw_cat_dog !! x = Some {["cat"; "dog"]}%string.
Proof. intros [-> | ->]; reflexivity. Qed.

Lemma cat_dog_unsupported (w : string) :
  w ∈ ({["cat"; "dog"]}%string : gset string) →
  ¬ supported cw_cat_dog (node_domains cw_cat_dog) slot_A slot_B w.
Proof.
  intros Hw (i & j & dom_y & wy & Hov & Hy & Hwy & (c & Hc1 & Hc2) & _).
  rewrite cat_dog_domains in Hy by auto.
  injection Hy as <-. vm_compute in Hov. injection Hov as <- <-.
  set_unfold. destruct Hw as [-> | ->], Hwy as [-> | ->];
    vm_compute in Hc1, Hc2; congruence.
Qed.

(** C3: [revise] is to leave in the domain of [x] exactly the words that
    have a support in the domain of [y], and so none when no word has one.
    On the two crossing slots with the words cat and dog, no word of the
    first slot has a support in the second, yet [revise] leaves both words
    in its domain and reports no change. *)
Theorem revise_keeps_unsupported_domain :
  revise cw_cat_dog slot_A slot_B (node_domains cw_cat_dog) =
    Ok (false, node_domains cw_cat_dog) ∧
  node_domains cw_cat_dog !! slot_A = Some {["cat"; "dog"]}%string ∧
  ∀ w, w ∈ ({["cat"; "dog"]}%string : gset string) →
       ¬ supported cw_cat_dog (node_domains cw_cat_dog) slot_A slot_B w.
Proof.
  split; [reflexivity|]. split; [reflexivity|]. apply cat_dog_unsupported.
Qed.

(** C4: when [ac3] returns [True] the store is to be arc consistent.  On
    the same puzzle [ac3] returns [True] and leaves the store as it was,
    where the word cat of the first slot has no support in the second. *)
Theorem ac3_true_not_arc_consistent :
  ac3 cw_cat_dog
      (ac3_fuel cw_cat_dog (all_arcs cw_cat_dog (node_domains cw_cat_dog))
                (node_domains cw_cat_dog))
      None (node_domains cw_cat_dog) =
    Some (Ok (true, node_domains cw_cat_dog)) ∧
  ¬ arc_consistent cw_cat_dog (node_domains cw_cat_dog).
Proof.
  split; [reflexivity|]. intros Harc.
  apply (cat_dog_unsupported "cat"); [set_solver|].
  apply (Harc slot_A {["cat"; "dog"]}%string); [reflexivity|set_solver|].
  apply elem_of_neighbors. split; [by eexists|]. simpl. set_solver.
Qed.

(** ** Sorting *)

Section sort_lemmas.
Context {A K : Type} (lt : K → K → bool) (key : A → K).

Lemma sort_insert_perm (x : A) (l : list A) : sort_insert lt key x l ≡ₚ x :: l.
Proof.
  induction l as [|y l IH]; simpl; [done|].
  destruct (lt (key x) (key y)); [done|]. by rewrite IH, Permutation_swap.
Qed.

Lemma foldl_sort_insert_perm (acc l : list A) :
  foldl (λ acc x, sort_insert lt key x acc) acc l ≡ₚ acc ++ l.
Proof.
  revert acc. induction l as [|x l IH]; intros acc; simpl.
  - by rewrite app_nil_r.
  - rewrite IH, sort_insert_perm. by rewrite <-Permutation_middle.
Qed.

Lemma list_sort_perm (l : list A) : list_sort lt key l ≡ₚ l.
Proof. apply (foldl_sort_insert_perm [] l). Qed.

Lemma list_sort_elem_of (x : A) (l : list A) : x ∈ list_sort lt key l ↔ x ∈ l.
Proof. by rewrite list_sort_perm. Qed.
End sort_lemmas.

Section sort_nat.
Context {A : Type} (key : A → nat).

Lemma sort_insert_sorted (x : A) (l : list A) :
  StronglySorted (λ a b, key a ≤ key b) l →
  StronglySorted (λ a b, key a ≤ key b) (sort_insert Nat.ltb key x l).
Proof.
  induction 1 as [|y l Hl IH Hy]; simpl; [by repeat constructor|].
  destruct (Nat.ltb_spec (key x) (key y)) as [Hlt|Hge].
  - constructor; [by constructor|]. constructor; [lia|].
    eapply Forall_impl; [done|]. simpl. intros z Hz. lia.
  - constructor; [done|]. rewrite sort_insert_perm. constructor; [lia|done].
Qed.

Lemma list_sort_sorted (l : list A) :
  StronglySorted (λ a b, key a ≤ key b) (list_sort Nat.ltb key l).
Proof.
  unfold list_sort. generalize (SSorted_nil (λ a b : A, key a ≤ key b)).
  generalize (@nil A). induction l as [|x l IH]; intros acc Hacc; simpl; [done|].
  by apply IH, sort_insert_sorted.
Qed.

(** In a sorted list the items with the least key are a prefix. *)
Lemma sorted_take_least (m : nat) (l : list A) :
  StronglySorted (λ a b, key a ≤ key b) l → Forall (λ a, m ≤ key a) l →
  take (length (filter (λ a, key a = m) l)) l = filter (λ a, key a = m) l.
Proof.
  induction 1 as [|x l Hl IH Hx]; intros Hm; [done|].
  apply Forall_cons in Hm as [Hmx Hm].
  rewrite filter_cons. case_decide as Hkey; simpl.
  - by rewrite IH.
  - assert (filter (λ a, key a = m) l = []) as ->; [|done].
    apply elem_of_nil_inv. intros z [Hz Hin]%list_elem_of_filter.
    rewrite Forall_forall in Hx. specialize (Hx z Hin). simpl in Hx. lia.
Qed.
End sort_nat.

Lemma StronglySorted_fmap_elem_of {A B : Type} (f : A → B)
    (R1 : relation A) (R2 : relation B) (l : list A) :
  (∀ x y, x ∈ l → y ∈ l → R1 x y → R2 (f x) (f y)) →
  StronglySorted R1 l → StronglySorted R2 (f <$> l).
Proof.
  intros HR Hl. induction Hl as [|x l Hl IH Hx]; csimpl; constructor.
  - apply IH. intros y z ??. apply HR; by right.
  - rewrite Forall_fmap. rewrite Forall_forall in Hx |- *.
    intros y Hy. simpl. apply HR; [by left|by right|by apply Hx].
Qed.

(** ** The consistency check *)

Section consistent.
Context (cw : Crossword).
Implicit Types (domains : domains_t) (assignment : assignment_t) (x y : Var).

Lemma consistent_pair_Ok assignment x x_value neighbor b :
  consistent_pair cw assignment x x_value neighbor = Ok b →
  ∃ ox on n_value x_c n_c,
    overlaps cw x neighbor = Some (ox, on) ∧
    assignment !! neighbor = Some n_value ∧
    String.get ox x_value = Some x_c ∧ String.get on n_value = Some n_c ∧
    (b = true ↔ x_c = n_c ∧ x_value ≠ n_value).
Proof.
  unfold consistent_pair.
  intros ([ox on] & Hov%subscript_Ok & H)%bind_Ok.
  apply bind_Ok in H as (x_c & Hx%index_Ok & H).
  apply bind_Ok in H as (n_value & Hn%getitem_Ok & H).
  apply bind_Ok in H as (n_c & Hnc%index_Ok & [= <-]).
  exists ox, on, n_value, x_c, n_c. split_and!; [done..|].
  rewrite negb_true_iff, orb_false_iff, !bool_decide_eq_false.
  split; intros [? ?]; split; [by apply dec_stable|done|by intros []|done].
Qed.

Lemma consistent_true assignment :
  consistent cw assignment = Ok true → satisfies cw assignment.
Proof.
  unfold consistent. rewrite forallM_true.
  intros Hall x y wx wy Hx Hy Hxy.
  specialize (Hall (x, wx)). simpl in Hall. rewrite forallM_true in Hall.
  destruct (consistent_pair_Ok assignment x wx y true)
    as (ox & on & wy' & x_c & n_c & Hov & Hy' & Hxc & Hnc & Hb).
  { apply Hall; [by apply elem_of_map_to_list|].
    apply elem_of_elements, elem_of_intersection. split; [done|].
    by apply elem_of_dom_2 in Hy. }
  assert (wy' = wy) as -> by congruence.
  destruct Hb as [[-> ?] _]; [done|].
  exists ox, on. split; [done|]. split; [by exists n_c|done].
Qed.

Lemma consistent_false assignment :
  consistent cw assignment = Ok false → ¬ satisfies cw assignment.
Proof.
  unfold consistent.
  intros ([x wx] & Hx%elem_of_map_to_list & Hin)%forallM_false Hsat.
  apply forallM_false in Hin as (y & Hy%elem_of_elements & Hpair).
  apply elem_of_intersection in Hy as [Hy _].
  apply consistent_pair_Ok in Hpair
    as (ox & on & wy & x_c & n_c & Hov & Hy' & Hxc & Hnc & Hb).
  destruct (Hsat x y wx wy Hx Hy' Hy) as (i & j & Hov' & (c & Hc1 & Hc2) & Hne).
  assert (i = ox ∧ j = on) as [-> ->] by (split; congruence).
  assert (false = true); [|done]. apply Hb. split; [congruence|done].
Qed.

(** The check returns on every assignment that draws its words from a
    well-formed store. *)
Lemma consistent_total domains assignment :
  wf_crossword cw → store_ok cw domains →
  dom assignment ⊆ variables cw → drawn_from domains assignment →
  ∃ b, consistent cw assignment = Ok b.
Proof.
  intros Hwf [Hnode Hdom] Hsub Hdrawn. unfold consistent.
  apply forallM_total. intros [x wx] Hx%elem_of_map_to_list.
  apply forallM_total. intros y [Hy Hya]%elem_of_elements%elem_of_intersection.
  apply elem_of_neighbors in Hy as [[[ox on] Hov] Hyv].
  apply elem_of_dom in Hya as [wy Hwy].
  assert (x ∈ variables cw) as Hxv by (by apply Hsub; apply elem_of_dom_2 in Hx).
  destruct (wf_pair_Some cw x y ox on) as (Hox & Hon & _); [by apply Hwf|done|].
  destruct (Hdrawn x wx Hx) as (dom_x & Hdx & Hwx).
  destruct (Hdrawn y wy Hwy) as (dom_y & Hdy & Hwy').
  destruct (index_in_range wx ox) as [x_c Hxc]; [by rewrite (Hnode x dom_x wx)|].
  destruct (index_in_range wy on) as [n_c Hnc]; [by rewrite (Hnode y dom_y wy)|].
  unfold consistent_pair. rewrite Hov. simpl. rewrite Hxc. simpl.
  apply getitem_Ok in Hwy as ->. simpl. rewrite Hnc. simpl. eauto.
Qed.

Lemma satisfies_weaken (a s : assignment_t) :
  a ⊆ s → satisfies cw s → satisfies cw a.
Proof.
  intros Hsub Hsat x y wx wy Hx Hy. apply Hsat; by eapply lookup_weaken.
Qed.

Lemma satisfies_empty : satisfies cw ∅.
Proof. intros x y wx wy Hx. by rewrite lookup_empty in Hx. Qed.
End consistent.

(** ** The ordering of the values *)

Section order_domain_values.
Context (cw : Crossword) (domains : domains_t).
Implicit Types (assignment : assignment_t) (var : Var) (dx : string).

Lemma size_filter_elements (P : string → Prop) `{!∀ w, Decision (P w)}
    (X : gset string) :
  length (filter P (elements X)) = size (filter P X).
Proof.
  unfold size, set_size. simpl. apply Permutation_length.
  apply NoDup_Permutation.
  - apply NoDup_filter, NoDup_elements.
  - apply NoDup_elements.
  - intros w. rewrite list_elem_of_filter, !elem_of_elements, elem_of_filter.
    done.
Qed.

Lemma count_value_fold dx ox on (n n' : nat) (l : list string) :
  foldlM (count_value dx ox on) n l = Ok n' →
  n' = n + length (filter (λ value, String.get ox dx ≠ String.get on value) l).
Proof.
  revert n. induction l as [|v l IH]; intros n; simpl; [intros [= <-]; lia|].
  intros (k & Hk & Hl%IH)%bind_Ok. unfold count_value in Hk.
  apply bind_Ok in Hk as (dx_c & Hdx%index_Ok & Hk).
  apply bind_Ok in Hk as (v_c & Hv%index_Ok & [= <-]).
  rewrite filter_cons. case_bool_decide as Hc; case_decide as Hd; simpl; [lia| | |lia].
  - destruct Hd. congruence.
  - destruct Hc. congruence.
Qed.

Lemma count_neighbor_fold var dx (n n' : nat) (l : list Var) :
  foldlM (count_neighbor cw domains var dx) n l = Ok n' →
  n' = n + sum_list_with (λ neighbor,
    match overlaps cw var neighbor, domains !! neighbor with
    | Some (ox, on), Some dom_n =>
      size (filter (λ value, String.get ox dx ≠ String.get on value) dom_n)
    | _, _ => 0
    end) l.
Proof.
  revert n. induction l as [|y l IH]; intros n; simpl; [intros [= <-]; lia|].
  intros (k & Hk & Hl%IH)%bind_Ok. unfold count_neighbor in Hk.
  apply bind_Ok in Hk as ([ox on] & Hov%subscript_Ok & Hk).
  apply bind_Ok in Hk as (dom_n & Hn%getitem_Ok & Hk%count_value_fold).
  rewrite Hov, Hn. rewrite size_filter_elements in Hk. lia.
Qed.

Lemma order_domain_values_Ok var assignment values :
  order_domain_values cw domains var assignment = Ok values →
  ∃ dom_var, domains !! var = Some dom_var ∧ values ≡ₚ elements dom_var ∧
    StronglySorted (λ w1 w2, ruled_out cw domains assignment var w1 ≤
                             ruled_out cw domains assignment var w2) values.
Proof.
  unfold order_domain_values.
  intros (dom_var & Hvar%getitem_Ok & (c & Hc%forM_Ok & [= <-])%bind_Ok)%bind_Ok.
  exists dom_var. split; [done|].
  assert (Forall (λ p, p.2 = ruled_out cw domains assignment var p.1) c ∧
          c.*1 = elements dom_var) as [Hcount Hfst].
  { clear Hvar. induction Hc as [|dx p l c' Hp _ IH]; [done|].
    apply bind_Ok in Hp as (n & Hn%count_neighbor_fold & [= <-]).
    destruct IH as [IH1 IH2]. split; [|by simpl; f_equal].
    constructor; [|done]. simpl. unfold ruled_out. lia. }
  split.
  - by rewrite list_sort_perm, Hfst.
  - apply (StronglySorted_fmap_elem_of fst (λ p1 p2 : string * nat, p1.2 ≤ p2.2)).
    + intros p1 p2 Hp1%list_sort_elem_of Hp2%list_sort_elem_of.
      rewrite Forall_forall in Hcount.
      by rewrite <-!Hcount by done.
    + apply list_sort_sorted.
Qed.

Lemma order_domain_values_total var assignment :
  wf_crossword cw → store_ok cw domains → var ∈ variables cw →
  ∃ values, order_domain_values cw domains var assignment = Ok values.
Proof.
  intros Hwf Hok Hvar. unfold order_domain_values.
  destruct (store_ok_lookup cw domains var Hok Hvar) as [dom_var Hdv].
  apply getitem_Ok in Hdv as Hdv'. rewrite Hdv'. simpl.
  destruct (forM_total (λ dx,
      n ← foldlM (count_neighbor cw domains var dx) 0
            (elements (neighbors cw var ∖ dom assignment));
      mret (dx, n)) (elements dom_var)) as [c ->]; [|simpl; eauto].
  intros dx Hdx%elem_of_elements.
  destruct (foldlM_total (count_neighbor cw domains var dx) 0
    (elements (neighbors cw var ∖ dom assignment))) as [n ->]; [|simpl; eauto].
  intros k y [Hy _]%elem_of_elements%elem_of_difference.
  apply elem_of_neighbors in Hy as [[[ox on] Hov] Hyv].
  destruct (wf_pair_Some cw var y ox on) as (Hox & Hon & _); [by apply Hwf|done|].
  destruct (store_ok_lookup cw domains y Hok Hyv) as [dom_y Hdy].
  unfold count_neighbor. rewrite Hov. simpl.
  apply getitem_Ok in Hdy as Hdy'. rewrite Hdy'. simpl.
  apply foldlM_total. intros k' v Hv%elem_of_elements. unfold count_value.
  destruct Hok as [Hnode _].
  destruct (index_in_range dx ox) as [c1 ->]; [by rewrite (Hnode var dom_var dx)|].
  destruct (index_in_range v on) as [c2 ->]; [by rewrite (Hnode y dom_y v)|].
  simpl. eauto.
Qed.
End order_domain_values.

(** C8: for a slot of a well-formed puzzle and store and any assignment,
    [order_domain_values] returns the words of the domain of the slot, each
    once, in ascending order of the number of words they rule out: the
    words of the domains of the unassigned neighbours that differ from the
    candidate at the overlap. *)
Theorem order_domain_values_least_constraining (cw : Crossword)
    (domains : domains_t) (var : Var) (assignment : assignment_t)
    (Hwf : wf_crossword cw) (Hok : store_ok cw domains)
    (Hvar : var ∈ variables cw) :
  ∃ values dom_var,
    order_domain_values cw domains var assignment = Ok values ∧
    domains !! var = Some dom_var ∧ values ≡ₚ elements dom_var ∧
    StronglySorted (λ w1 w2, ruled_out cw domains assignment var w1 ≤
                             ruled_out cw domains assignment var w2) values.
Proof.
  destruct (order_domain_values_total cw domains var assignment Hwf Hok Hvar)
    as [values Hvalues].
  destruct (order_domain_values_Ok cw domains var assignment values Hvalues)
    as (dom_var & ? & ? & ?).
  by exists values, dom_var.
Qed.

Lemma wf_four : wf_crossword cw_four.
Proof. apply wf_crossword_check. reflexivity. Qed.

Lemma order_domain_values_least_constraining_witness :
  ∃ values dom_var,
    order_domain_values cw_four (node_domains cw_four) slot_top ∅ = Ok values ∧
    node_domains cw_four !! slot_top = Some dom_var ∧
    values ≡ₚ elements dom_var ∧
    StronglySorted
      (λ w1 w2, ruled_out cw_four (node_domains cw_four) ∅ slot_top w1 ≤
                ruled_out cw_four (node_domains cw_four) ∅ slot_top w2) values.
Proof.
  apply (order_domain_values_least_constraining cw_four (node_domains cw_four)
           slot_top ∅ wf_four (node_domains_ok cw_four)).
  simpl. set_solver.
Defined.

(** ** The choice of the next slot *)

Section select.
Context (cw : Crossword) (domains : domains_t).
Implicit Types (assignment : assignment_t) (var : Var).

Lemma remaining_Ok assignment (remaining : list (Var * nat)) :
  forM (λ var, d ← getitem domains var; mret (var, size d))
       (elements (variables cw ∖ dom assignment)) = Ok remaining →
  remaining.*1 = elements (variables cw ∖ dom assignment) ∧
  Forall (λ p, ∃ d : gset string, domains !! p.1 = Some d ∧ p.2 = size d)
         remaining.
Proof.
  intros Hrem%forM_Ok. induction Hrem as [|v p l r Hp _ [IH1 IH2]]; [done|].
  apply bind_Ok in Hp as (d & Hd%getitem_Ok & [= <-]). split.
  - simpl. by f_equal.
  - constructor; [by exists d|done].
Qed.

(** The slot returned is unassigned and no unassigned slot has a smaller
    domain. *)
Lemma select_unassigned_variable_Ok assignment var :
  select_unassigned_variable cw domains assignment = Ok var →
  var ∈ variables cw ∖ dom assignment ∧
  ∃ d_var : gset string, domains !! var = Some d_var ∧
    ∀ v (d_v : gset string),
      v ∈ variables cw ∖ dom assignment → domains !! v = Some d_v →
      size d_var ≤ size d_v.
Proof.
  unfold select_unassigned_variable.
  intros (remaining & [Hfst Hsize]%remaining_Ok & Hsel)%bind_Ok.
  pose proof (list_sort_sorted snd remaining) as Hsorted.
  pose proof (list_sort_perm Nat.ltb snd remaining) as Hperm.
  assert (∃ p, p ∈ list_sort Nat.ltb snd remaining ∧ var = p.1 ∧
               Forall (λ q : Var * nat, p.2 ≤ q.2) (list_sort Nat.ltb snd remaining))
    as (p & Hp & -> & Hmin).
  { destruct (list_sort Nat.ltb snd remaining) as [|m rest] eqn:Hs; [done|].
    assert (Forall (λ q : Var * nat, m.2 ≤ q.2) (m :: rest)) as Hm.
    { apply StronglySorted_inv in Hsorted as [_ ?]. by constructor. }
    case_bool_decide as Hc.
    - injection Hsel as <-. exists m. split; [by left|done].
    - pose proof (sorted_take_least snd (m.2) (m :: rest) Hsorted Hm) as Htake.
      set (c := length (filter (λ elem : Var * nat, elem.2 = m.2) (m :: rest))) in *.
      destruct (list_sort set_lt (λ pair : Var * nat, neighbors cw pair.1)
                  (take c (m :: rest))) as [|f tied] eqn:Htied; [done|].
      injection Hsel as <-.
      assert (f ∈ take c (m :: rest)) as Hf.
      { eapply list_sort_elem_of. rewrite Htied. by left. }
      rewrite Htake in Hf. apply list_elem_of_filter in Hf as [Hf2 Hf].
      exists f. split; [done|]. split; [done|]. by rewrite Hf2. }
  rewrite Hperm in Hp, Hmin. rewrite Forall_forall in Hsize, Hmin.
  split.
  - apply elem_of_elements. rewrite <-Hfst. by apply list_elem_of_fmap_2.
  - destruct (Hsize p Hp) as (d & Hd & Hd2). exists d. split; [done|].
    intros v d_v Hv%elem_of_elements Hdv. rewrite <-Hfst in Hv.
    apply list_elem_of_fmap in Hv as (q & -> & Hq).
    destruct (Hsize q Hq) as (d' & Hd' & Hq2).
    assert (d' = d_v) as -> by congruence.
    specialize (Hmin q Hq). simpl in Hmin. lia.
Qed.

Lemma select_unassigned_variable_total assignment :
  dom domains = variables cw → variables cw ∖ dom assignment ≠ ∅ →
  ∃ var, select_unassigned_variable cw domains assignment = Ok var.
Proof.
  intros Hdom Hne. unfold select_unassigned_variable.
  destruct (forM_total (λ var, d ← getitem domains var; mret (var, size d))
    (elements (variables cw ∖ dom assignment))) as [remaining Hrem].
  { intros v Hv%elem_of_elements.
    assert (v ∈ dom domains) as [d Hd]%elem_of_dom by set_solver.
    apply getitem_Ok in Hd as ->. simpl. eauto. }
  rewrite Hrem. simpl. apply remaining_Ok in Hrem as [Hfst _].
  pose proof (list_sort_perm Nat.ltb snd remaining) as Hperm.
  destruct (list_sort Nat.ltb snd remaining) as [|m rest] eqn:Hs.
  { apply Permutation_nil_l in Hperm as <-. simpl in Hfst.
    symmetry in Hfst. by apply elements_empty_inv, leibniz_equiv in Hfst. }
  case_bool_decide; [simpl; eauto|].
  set (tied := take _ (m :: rest)).
  pose proof (list_sort_perm set_lt (λ pair : Var * nat, neighbors cw pair.1) tied)
    as Hperm'.
  destruct (list_sort set_lt _ tied) as [|f ?]; [|simpl; eauto].
  apply Permutation_nil_l in Hperm'. unfold tied in Hperm'.
  rewrite filter_cons, decide_True in Hperm' by done. done.
Qed.
End select.

(** C5: among the unassigned slots with the smallest domain,
    [select_unassigned_variable] is to return one with the most neighbours.
    On the puzzle of four slots, after node consistency and [ac3] (which
    removes no word here), the left and the right slot are tied with two
    words each; the right slot has two
    neighbours and the left slot one, and the left slot is returned.  The
    tied slots are sorted on their sets of neighbours, compared by
    inclusion, in ascending order: whichever of the two comes first before
    the sort, the left slot comes first after it. *)
Theorem select_unassigned_variable_least_degree :
  ac3 cw_four (ac3_fuel cw_four (all_arcs cw_four (node_domains cw_four))
                        (node_domains cw_four))
      None (node_domains cw_four) = Some (Ok (true, node_domains cw_four)) ∧
  size <$> node_domains cw_four !! slot_left = Some 2 ∧
  size <$> node_domains cw_four !! slot_right = Some 2 ∧
  size <$> node_domains cw_four !! slot_top = Some 4 ∧
  size <$> node_domains cw_four !! slot_bottom = Some 3 ∧
  size (neighbors cw_four slot_left) = 1 ∧
  size (neighbors cw_four slot_right) = 2 ∧
  select_unassigned_variable cw_four (node_domains cw_four) ∅ = Ok slot_left ∧
  list_sort set_lt (λ pair : Var * nat, neighbors cw_four pair.1)
    [(slot_left, 2); (slot_right, 2)] = [(slot_left, 2); (slot_right, 2)] ∧
  list_sort set_lt (λ pair : Var * nat, neighbors cw_four pair.1)
    [(slot_right, 2); (slot_left, 2)] = [(slot_left, 2); (slot_right, 2)].
Proof. split_and!; reflexivity. Qed.

(** ** [backtrack] *)

Section backtrack.
Context (cw : Crossword) (domains : domains_t).
Implicit Types (assignment a r s : assignment_t) (var : Var)
  (rec : assignment_t → option (res (option assignment_t))).

(** A value of the loop is a result of the recursive call on an extension
    that passed the consistency check. *)
Lemma try_values_Some rec var a values r :
  try_values cw rec var a values = Some (Ok (Some r)) →
  ∃ value, value ∈ values ∧ consistent cw (<[var := value]> a) = Ok true ∧
           rec (<[var := value]> a) = Some (Ok (Some r)).
Proof.
  induction values as [|v values IH]; simpl; [done|].
  destruct (consistent cw (<[var := v]> a)) as [[]|e] eqn:Hc; [| |done].
  - destruct (rec (<[var := v]> a)) as [[[r'|]|e]|] eqn:Hrec; [| |done..].
    + intros [= ->]. exists v. split; [by left|done].
    + intros (v' & ? & ?)%IH. exists v'. split; [by right|done].
  - intros (v' & ? & ?)%IH. exists v'. split; [by right|done].
Qed.

Lemma try_values_not_None rec var a values :
  (∀ value, value ∈ values → rec (<[var := value]> a) ≠ None) →
  try_values cw rec var a values ≠ None.
Proof.
  induction values as [|v values IH]; simpl; intros Hrec; [done|].
  assert (try_values cw rec var a values ≠ None) as Hrest.
  { apply IH. intros v' ?. apply Hrec. by right. }
  destruct (consistent cw (<[var := v]> a)) as [[]|e]; [|done..].
  specialize (Hrec v (list_elem_of_here _ _)).
  by destruct (rec (<[var := v]> a)) as [[[r'|]|e]|].
Qed.

Lemma try_values_total rec var a values :
  (∀ value, value ∈ values → ∃ b, consistent cw (<[var := value]> a) = Ok b) →
  (∀ value, value ∈ values →
     ∃ o : option assignment_t, rec (<[var := value]> a) = Some (Ok o)) →
  ∃ o : option assignment_t, try_values cw rec var a values = Some (Ok o).
Proof.
  induction values as [|v values IH]; simpl; intros Hc Hrec; [eauto|].
  assert (∃ o : option assignment_t,
            try_values cw rec var a values = Some (Ok o)) as Hrest.
  { apply IH; intros v' ?; [apply Hc|apply Hrec]; by right. }
  destruct (Hc v) as [[] ->]; [by left| |done].
  destruct (Hrec v) as [[r|] ->]; [by left|eauto|done].
Qed.

(** When one of the values gives a consistent extension on which the
    recursive call succeeds, the loop succeeds, at that value or before. *)
Lemma try_values_finds rec var a values w :
  (∀ value, value ∈ values → ∃ b, consistent cw (<[var := value]> a) = Ok b) →
  (∀ value, value ∈ values →
     ∃ o : option assignment_t, rec (<[var := value]> a) = Some (Ok o)) →
  w ∈ values → consistent cw (<[var := w]> a) = Ok true →
  (∃ r, rec (<[var := w]> a) = Some (Ok (Some r))) →
  ∃ r, try_values cw rec var a values = Some (Ok (Some r)).
Proof.
  intros Hc Hrec Hw Hcw [rw Hrw].
  induction values as [|v values IH]; simpl; [by apply elem_of_nil in Hw|].
  destruct (decide (v = w)) as [->|Hne].
  { rewrite Hcw, Hrw. eauto. }
  apply elem_of_cons in Hw as [->|Hw]; [done|].
  assert (∃ r, try_values cw rec var a values = Some (Ok (Some r))) as Hrest.
  { apply IH; [| |done]; intros v' ?; [apply Hc|apply Hrec]; by right. }
  destruct (Hc v) as [[] ->]; [by left| |done].
  destruct (Hrec v) as [[r|] ->]; [by left|eauto|done].
Qed.

Lemma assignment_complete_true a :
  assignment_complete cw a = true ↔ complete cw a.
Proof. unfold assignment_complete, complete. apply bool_decide_eq_true. Qed.

Lemma unassigned_size var value a :
  var ∈ variables cw ∖ dom a →
  size (variables cw ∖ dom (<[var := value]> a)) < size (variables cw ∖ dom a).
Proof.
  intros Hvar. apply subset_size. rewrite dom_insert_L. set_solver.
Qed.

(** Soundness: what [backtrack] returns is complete, extends the
    assignment it was given and keeps its good properties. *)
Lemma backtrack_sound fuel a r :
  backtrack cw domains fuel a = Some (Ok (Some r)) →
  complete cw r ∧ a ⊆ r ∧
  (satisfies cw a → satisfies cw r) ∧
  (drawn_from domains a → drawn_from domains r).
Proof.
  revert a. induction fuel as [|fuel IH]; intros a; [done|]. simpl.
  destruct (assignment_complete cw a) eqn:Hcomplete.
  { intros [= <-]. by apply assignment_complete_true in Hcomplete. }
  destruct (select_unassigned_variable cw domains a) as [var|] eqn:Hsel; [|done].
  destruct (order_domain_values cw domains var a) as [values|] eqn:Hval; [|done].
  intros (value & Hvalue & Hc%consistent_true & Hrec%IH)%try_values_Some.
  destruct Hrec as (Hr & Hsub & Hsat & Hdrawn).
  apply select_unassigned_variable_Ok in Hsel as [Hvar%elem_of_difference _].
  destruct Hvar as [_ Hvar%not_elem_of_dom].
  apply order_domain_values_Ok in Hval as (dom_var & Hdv & Hperm & _).
  split; [done|]. split; [|split; [auto|]].
  - etrans; [|done]. by apply insert_subseteq.
  - intros Ha. apply Hdrawn. intros x w.
    destruct (decide (x = var)) as [->|].
    + rewrite lookup_insert_eq. intros [= <-]. exists dom_var. split; [done|].
      apply elem_of_elements. by rewrite <-Hperm.
    + rewrite lookup_insert_ne by done. apply Ha.
Qed.

(** The recursion is no deeper than the number of unassigned slots. *)
Lemma backtrack_fuel_enough fuel a :
  size (variables cw ∖ dom a) < fuel → backtrack cw domains fuel a ≠ None.
Proof.
  revert a. induction fuel as [|fuel IH]; intros a Hlt; [lia|]. simpl.
  destruct (assignment_complete cw a); [done|].
  destruct (select_unassigned_variable cw domains a) as [var|] eqn:Hsel; [|done].
  destruct (order_domain_values cw domains var a) as [values|]; [|done].
  apply select_unassigned_variable_Ok in Hsel as [Hvar _].
  apply try_values_not_None. intros value _. apply IH.
  pose proof (unassigned_size var value a Hvar). lia.
Qed.

Section well_formed.
Context (Hwf : wf_crossword cw) (Hok : store_ok cw domains).

Lemma extension_ok a var value values (dom_var : gset string) :
  dom a ⊆ variables cw → drawn_from domains a →
  var ∈ variables cw → domains !! var = Some dom_var →
  values ≡ₚ elements dom_var → value ∈ values →
  dom (<[var := value]> a) ⊆ variables cw ∧
  drawn_from domains (<[var := value]> a).
Proof.
  intros Hdom Hdrawn Hvar Hdv Hperm Hvalue. split.
  - rewrite dom_insert_L. set_solver.
  - intros x w. destruct (decide (x = var)) as [->|].
    + rewrite lookup_insert_eq. intros [= <-]. exists dom_var.
      split; [done|]. apply elem_of_elements. by rewrite <-Hperm.
    + rewrite lookup_insert_ne by done. apply Hdrawn.
Qed.

(** On a well-formed puzzle and store [backtrack] raises nothing. *)
Lemma backtrack_total fuel a :
  dom a ⊆ variables cw → drawn_from domains a →
  size (variables cw ∖ dom a) < fuel →
  ∃ o : option assignment_t, backtrack cw domains fuel a = Some (Ok o).
Proof.
  revert a. induction fuel as [|fuel IH]; intros a Hdom Hdrawn Hlt; [lia|].
  simpl. destruct (assignment_complete cw a) eqn:Hcomplete; [eauto|].
  destruct (select_unassigned_variable_total cw domains a) as [var Hsel].
  { by destruct Hok. }
  { intros Hempty. apply not_true_iff_false in Hcomplete.
    apply Hcomplete, assignment_complete_true. unfold complete.
    apply set_eq. intros x. split; [apply Hdom|]. intros Hx.
    destruct (decide (x ∈ dom a)); [done|]. set_solver. }
  rewrite Hsel.
  apply select_unassigned_variable_Ok in Hsel as [Hvar _].
  assert (var ∈ variables cw) as Hvar' by set_solver.
  destruct (order_domain_values_total cw domains var a Hwf Hok Hvar')
    as [values Hval].
  rewrite Hval.
  apply order_domain_values_Ok in Hval as (dom_var & Hdv & Hperm & _).
  apply try_values_total.
  - intros value Hvalue.
    destruct (extension_ok a var value values dom_var) as [? ?]; [done..|].
    by eapply consistent_total.
  - intros value Hvalue.
    destruct (extension_ok a var value values dom_var) as [? ?]; [done..|].
    apply IH; [done..|].
    pose proof (unassigned_size var value a Hvar). lia.
Qed.

(** Completeness: when some solution extends the assignment,
    [backtrack] returns an assignment. *)
Lemma backtrack_finds fuel a s :
  complete cw s → satisfies cw s → drawn_from domains s → a ⊆ s →
  size (variables cw ∖ dom a) < fuel →
  ∃ r, backtrack cw domains fuel a = Some (Ok (Some r)).
Proof.
  intros Hs Hsat Hdrawn_s. revert a.
  induction fuel as [|fuel IH]; intros a Hsub Hlt; [lia|].
  assert (dom a ⊆ variables cw) as Hdom.
  { rewrite <-Hs. by apply subseteq_dom. }
  assert (drawn_from domains a) as Hdrawn.
  { intros x w Hx. apply Hdrawn_s. by eapply lookup_weaken. }
  simpl. destruct (assignment_complete cw a) eqn:Hcomplete; [eauto|].
  destruct (select_unassigned_variable_total cw domains a) as [var Hsel].
  { by destruct Hok. }
  { intros Hempty. apply not_true_iff_false in Hcomplete.
    apply Hcomplete, assignment_complete_true. unfold complete.
    apply set_eq. intros x. split; [apply Hdom|]. intros Hx.
    destruct (decide (x ∈ dom a)); [done|]. set_solver. }
  rewrite Hsel.
  apply select_unassigned_variable_Ok in Hsel as [Hvar _].
  assert (var ∈ variables cw) as Hvar' by set_solver.
  destruct (order_domain_values_total cw domains var a Hwf Hok Hvar')
    as [values Hval].
  rewrite Hval.
  apply order_domain_values_Ok in Hval as (dom_var & Hdv & Hperm & _).
  assert (∃ w, s !! var = Some w) as [w Hw].
  { apply elem_of_dom. by rewrite Hs. }
  assert (w ∈ values) as Hwv.
  { destruct (Hdrawn_s var w Hw) as (d & Hd & ?).
    assert (d = dom_var) as -> by congruence.
    rewrite Hperm. by apply elem_of_elements. }
  assert (<[var := w]> a ⊆ s) as Hsub' by (by apply insert_subseteq_l).
  assert (∀ value, value ∈ values →
            ∃ b, consistent cw (<[var := value]> a) = Ok b) as Hc.
  { intros value Hvalue.
    destruct (extension_ok a var value values dom_var) as [? ?]; [done..|].
    by eapply consistent_total. }
  apply (try_values_finds _ _ _ _ w); [done| |done| |].
  - intros value Hvalue.
    destruct (extension_ok a var value values dom_var) as [? ?]; [done..|].
    apply backtrack_total; [done..|].
    pose proof (unassigned_size var value a Hvar). lia.
  - destruct (Hc w Hwv) as [[] Hb]; [done|].
    apply consistent_false in Hb. destruct Hb. by eapply satisfies_weaken.
  - apply IH; [done|]. pose proof (unassigned_size var w a Hvar). lia.
Qed.
End well_formed.
End backtrack.

(** ** [solve] *)

Section solve.
Context (cw : Crossword).
Implicit Types (a r s : assignment_t) (domains : domains_t).

Lemma solve_unfold (b : bool) domains :
  ac3 cw (ac3_fuel cw (all_arcs cw (node_domains cw)) (node_domains cw))
      None (node_domains cw) = Some (Ok (b, domains)) →
  solve cw = backtrack cw domains (backtrack_fuel cw ∅) ∅.
Proof. unfold solve, node_domains. by intros ->. Qed.

Lemma ac3_default fuel domains :
  ac3 cw fuel None domains = ac3_loop cw fuel (all_arcs cw domains) domains.
Proof. reflexivity. Qed.

(** [solve] ends: the bounds it gives to its two loops are enough. *)
Lemma solve_terminates : solve cw ≠ None.
Proof.
  unfold solve. fold (node_domains cw). rewrite ac3_default.
  destruct (ac3_loop_terminates cw
    (ac3_fuel cw (all_arcs cw (node_domains cw)) (node_domains cw))
    (all_arcs cw (node_domains cw)) (node_domains cw)) as [[[b d]|e] ->];
    [unfold ac3_fuel; lia| |done].
  apply backtrack_fuel_enough. unfold backtrack_fuel. lia.
Qed.

(** On a well-formed puzzle the two passes before the search raise
    nothing and leave a well-formed store. *)
Lemma preprocessing_ok :
  wf_crossword cw →
  ∃ domains,
    ac3 cw (ac3_fuel cw (all_arcs cw (node_domains cw)) (node_domains cw))
        None (node_domains cw) = Some (Ok (true, domains)) ∧
    store_ok cw domains ∧ shrinks (node_domains cw) domains.
Proof.
  intros Hwf. pose proof (node_domains_ok cw) as Hok.
  destruct (ac3_loop_terminates cw
    (ac3_fuel cw (all_arcs cw (node_domains cw)) (node_domains cw))
    (all_arcs cw (node_domains cw)) (node_domains cw)) as [r Hr].
  { unfold ac3_fuel. lia. }
  assert (neighbor_arcs cw (all_arcs cw (node_domains cw))) as Harcs.
  { apply all_arcs_neighbor_arcs. by destruct Hok as [_ ->]. }
  destruct (ac3_loop_ok cw _ _ _ r Hwf Hok Harcs Hr) as (d & -> & ? & ?).
  exists d. by rewrite ac3_default.
Qed.

(** C1: an assignment returned by [backtrack] on the empty assignment,
    and so one returned by [solve], is complete, with one word for every
    slot of the puzzle, and consistent: any two assigned neighbours agree
    at their overlap and hold different words. *)
Theorem solve_complete_consistent a
    (Hret : solve cw = Some (Ok (Some a)) ∨
            ∃ domains fuel, backtrack cw domains fuel ∅ = Some (Ok (Some a))) :
  complete cw a ∧ satisfies cw a.
Proof.
  assert (∃ domains fuel, backtrack cw domains fuel ∅ = Some (Ok (Some a)))
    as (domains & fuel & Hback).
  { destruct Hret as [Hsolve|?]; [|done]. unfold solve in Hsolve.
    destruct (ac3 cw _ None _) as [[[b d]|e]|]; [|done..]. eauto. }
  apply backtrack_sound in Hback as (? & _ & Hsat & _).
  split; [done|]. apply Hsat, satisfies_empty.
Qed.

(** C2: on a well-formed puzzle, when some complete assignment draws the
    word of every slot from the domains that node consistency and [ac3]
    leave and satisfies every constraint, [backtrack] on the empty
    assignment, and so [solve], returns such an assignment. *)
Theorem backtrack_finds_solution (b : bool) domains s
    (Hwf : wf_crossword cw)
    (Hac3 : ac3 cw (ac3_fuel cw (all_arcs cw (node_domains cw)) (node_domains cw))
                None (node_domains cw) = Some (Ok (b, domains)))
    (Hcomplete : complete cw s) (Hdrawn : drawn_from domains s)
    (Hsat : satisfies cw s) :
  ∃ a, backtrack cw domains (backtrack_fuel cw ∅) ∅ = Some (Ok (Some a)) ∧
       solve cw = Some (Ok (Some a)) ∧
       complete cw a ∧ drawn_from domains a ∧ satisfies cw a.
Proof.
  destruct (preprocessing_ok Hwf) as (d & Hd & Hok & _).
  assert (d = domains) as -> by congruence.
  destruct (backtrack_finds cw domains Hwf Hok (backtrack_fuel cw ∅) ∅ s)
    as [a Ha]; [done..|apply map_empty_subseteq|unfold backtrack_fuel; lia|].
  exists a. split; [done|]. split; [by rewrite (solve_unfold b domains)|].
  apply backtrack_sound in Ha as (? & _ & Hsat' & Hdrawn').
  split; [done|]. split; [apply Hdrawn'|apply Hsat', satisfies_empty].
  intros x w Hx. by rewrite lookup_empty in Hx.
Qed.
End solve.

Lemma solve_cat_ten :
  solve cw_cat_ten = Some (Ok (Some {[slot_A := "cat"; slot_B := "ten"]}%string)).
Proof. reflexivity. Qed.

Lemma ac3_cat_ten :
  ac3 cw_cat_ten
      (ac3_fuel cw_cat_ten (all_arcs cw_cat_ten (node_domains cw_cat_ten))
                (node_domains cw_cat_ten))
      None (node_domains cw_cat_ten) =
  Some (Ok (true, {[slot_A := {["cat"]}; slot_B := {["ten"]}]}%string)).
Proof. reflexivity. Qed.

Lemma solve_complete_consistent_witness :
  complete cw_cat_ten {[slot_A := "cat"; slot_B := "ten"]}%string ∧
  satisfies cw_cat_ten {[slot_A := "cat"; slot_B := "ten"]}%string.
Proof.
  apply (solve_complete_consistent cw_cat_ten). left. reflexivity.
Defined.

Lemma backtrack_finds_solution_witness :
  ∃ a,
    backtrack cw_cat_ten {[slot_A := {["cat"]}; slot_B := {["ten"]}]}%string
      (backtrack_fuel cw_cat_ten ∅) ∅ = Some (Ok (Some a)) ∧
    solve cw_cat_ten = Some (Ok (Some a)) ∧
    complete cw_cat_ten a ∧
    drawn_from {[slot_A := {["cat"]}; slot_B := {["ten"]}]}%string a ∧
    satisfies cw_cat_ten a.
Proof.
  pose proof (backtrack_sound cw_cat_ten
    {[slot_A := {["cat"]}; slot_B := {["ten"]}]}%string
    (backtrack_fuel cw_cat_ten ∅) ∅
    {[slot_A := "cat"; slot_B := "ten"]}%string eq_refl) as (Hc & _ & Hs & Hd).
  apply (backtrack_finds_solution cw_cat_ten true
    {[slot_A := {["cat"]}; slot_B := {["ten"]}]}%string
    {[slot_A := "cat"; slot_B := "ten"]}%string).
  - exact wf_cat_ten.
  - reflexivity.
  - exact Hc.
  - apply Hd. intros x w Hx. by rewrite lookup_empty in Hx.
  - apply Hs, satisfies_empty.
Defined.

(** ** [backtrack] on the shared objects: the frame *)

Section backtrack_heap_lemmas.
Context (cw : Crossword).
Implicit Types (σ : state) (d : assignment_t).

Lemma extend_state σ assignment d var value :
  dicts σ !! assignment = Some d →
  ∃ σ1 σ2,
    dict_copy assignment σ = Some (length (dicts σ), σ1) ∧
    dict_setitem (length (dicts σ)) var value σ1 = Some σ2 ∧
    self_domains σ2 = self_domains σ ∧
    dicts σ2 = dicts σ ++ [<[var := value]> d].
Proof.
  intros Hd. unfold dict_copy, dict_setitem. rewrite Hd. eexists _, _.
  split; [done|]. simpl.
  rewrite lookup_app_r, Nat.sub_diag by done. simpl. split; [done|].
  split; [done|]. rewrite insert_app_r_alt, Nat.sub_diag by done. done.
Qed.

Lemma try_values_h_agrees
    (rec : nat → state → option (res (option nat) * state))
    (rec' : assignment_t → option (res (option assignment_t)))
    var assignment values σ0 σ d :
  (∀ l σ1 d1, dicts σ1 !! l = Some d1 → self_domains σ1 = self_domains σ0 →
     match rec l σ1 with
     | None => rec' d1 = None
     | Some (r, σ') => agrees σ1 σ' d1 r (rec' d1)
     end) →
  dicts σ !! assignment = Some d → self_domains σ = self_domains σ0 →
  match try_values_h cw rec var assignment values σ with
  | None => try_values cw rec' var d values = None
  | Some (r, σ') => agrees σ σ' d r (try_values cw rec' var d values)
  end.
Proof.
  intros Hrec. revert σ. induction values as [|value values IH];
    intros σ Hd Hdom; simpl.
  { split; [done|]. split; [done|]. done. }
  destruct (extend_state σ assignment d var value Hd)
    as (σ1 & σ2 & -> & -> & Hdom2 & Hdicts2).
  assert (dicts σ2 !! length (dicts σ) = Some (<[var := value]> d)) as Hnew.
  { rewrite Hdicts2, lookup_app_r, Nat.sub_diag by done. done. }
  assert (dicts σ2 !! assignment = Some d) as Hd2.
  { rewrite Hdicts2. by apply lookup_app_l_Some. }
  assert (dicts σ `prefix_of` dicts σ2) as Hpre.
  { rewrite Hdicts2. by apply prefix_app_r. }
  assert (∀ σ' r pure, agrees σ2 σ' d r pure → agrees σ σ' d r pure) as Hlift.
  { intros σ' r pure (? & ? & ?). split; [congruence|].
    split; [by etrans|done]. }
  rewrite Hnew.
  destruct (consistent cw (<[var := value]> d)) as [[]|e].
  - specialize (Hrec (length (dicts σ)) σ2 _ Hnew ltac:(congruence)).
    destruct (rec (length (dicts σ)) σ2) as [[r σ3]|]; [|by rewrite Hrec].
    destruct Hrec as (Hdom3 & Hpre3 & Hr).
    destruct r as [[result|]|e].
    + destruct Hr as (d' & Hd' & ->). split; [congruence|].
      split; [by etrans|]. by exists d'.
    + rewrite Hr.
      assert (dicts σ3 !! assignment = Some d) as Hd3.
      { by eapply prefix_lookup_Some. }
      specialize (IH σ3 Hd3 ltac:(congruence)).
      destruct (try_values_h cw rec var assignment values σ3) as [[r σ4]|];
        [|done].
      destruct IH as (? & ? & ?). split; [congruence|].
      split; [|done]. etrans; [done|]. by etrans.
    + rewrite Hr. split; [congruence|]. split; [by etrans|done].
  - specialize (IH σ2 Hd2 ltac:(congruence)).
    destruct (try_values_h cw rec var assignment values σ2) as [[r σ4]|];
      [by apply Hlift|done].
  - apply Hlift. split; [done|]. split; done.
Qed.

(** [backtrack] on the heap computes what [backtrack] on the items
    computes, and leaves the store and the dictionaries it found. *)
Lemma backtrack_h_agrees fuel assignment σ d :
  dicts σ !! assignment = Some d →
  match backtrack_h cw fuel assignment σ with
  | None => backtrack cw (self_domains σ) fuel d = None
  | Some (r, σ') => agrees σ σ' d r (backtrack cw (self_domains σ) fuel d)
  end.
Proof.
  revert assignment σ d. induction fuel as [|fuel IH];
    intros assignment σ d Hd; [done|]. simpl. rewrite Hd.
  destruct (assignment_complete cw d).
  { split; [done|]. split; [done|]. by exists d. }
  destruct (select_unassigned_variable cw (self_domains σ) d) as [var|e];
    [|by repeat split].
  destruct (order_domain_values cw (self_domains σ) var d) as [values|e];
    [|by repeat split].
  apply (try_values_h_agrees _ (backtrack cw (self_domains σ) fuel)
           var assignment values σ σ d); [|done..].
  intros l σ1 d1 Hd1 Hdom1. specialize (IH l σ1 d1 Hd1).
  by rewrite Hdom1 in IH.
Qed.

(** C9: a call of [backtrack] leaves [self.domains] and the dictionary it
    was given with the contents they had, whether it returns an
    assignment, [None], or raises; so it leaves every dictionary that
    existed before the call: the extensions are written to copies. *)
Theorem backtrack_frame fuel assignment σ d r σ'
    (Hd : dicts σ !! assignment = Some d)
    (Hcall : backtrack_h cw fuel assignment σ = Some (r, σ')) :
  self_domains σ' = self_domains σ ∧
  dicts σ' !! assignment = Some d ∧
  ∀ l d', dicts σ !! l = Some d' → dicts σ' !! l = Some d'.
Proof.
  pose proof (backtrack_h_agrees fuel assignment σ d Hd) as Hagree.
  rewrite Hcall in Hagree. destruct Hagree as (Hdom & Hpre & _).
  split; [done|]. split; [by eapply prefix_lookup_Some|].
  intros l d' ?. by eapply prefix_lookup_Some.
Qed.
End backtrack_heap_lemmas.

Lemma backtrack_frame_witness :
  ∃ r σ',
    backtrack_h cw_cat_ten 3 0
      (mkState {[slot_A := {["cat"]}; slot_B := {["ten"]}]}%string [∅]) =
      Some (r, σ') ∧
    self_domains σ' = {[slot_A := {["cat"]}; slot_B := {["ten"]}]}%string ∧
    dicts σ' !! 0 = Some ∅.
Proof.
  eexists _, _. split; [reflexivity|].
  edestruct (backtrack_frame cw_cat_ten 3 0
    (mkState {[slot_A := {["cat"]}; slot_B := {["ten"]}]}%string [∅]) ∅)
    as (Hdomains & Hdict & _); [reflexivity..|].
  split; [exact Hdomains|exact Hdict].
Defined.

(** ** Further properties: the domain store *)

(** X1: [enforce_node_consistency] keeps the slots of the store and leaves
    in each domain exactly its words that are as long as the slot; the
    store it returns is node consistent. *)
Theorem enforce_node_consistency_filters (domains : domains_t) :
  dom (enforce_node_consistency domains) = dom domains ∧
  node_consistent (enforce_node_consistency domains) ∧
  ∀ x dom_x, domains !! x = Some dom_x →
    ∃ dom_x', enforce_node_consistency domains !! x = Some dom_x' ∧
      ∀ w, w ∈ dom_x' ↔ w ∈ dom_x ∧ String.length w = var_length x.
Proof.
  split_and!.
  - apply set_eq. intros x.
    rewrite !elem_of_dom, enforce_node_consistency_lookup.
    by rewrite fmap_is_Some.
  - intros x dom_x w. rewrite enforce_node_consistency_lookup.
    destruct (domains !! x) as [d|]; [|done]. simpl. intros [= <-].
    by intros [? _]%elem_of_filter.
  - intros x dom_x Hx. rewrite enforce_node_consistency_lookup, Hx. simpl.
    eexists. split; [done|]. intros w. rewrite elem_of_filter. tauto.
Qed.

(** X2: a second pass of [enforce_node_consistency] changes nothing. *)
Theorem enforce_node_consistency_idempotent (domains : domains_t) :
  enforce_node_consistency (enforce_node_consistency domains) =
  enforce_node_consistency domains.
Proof.
  apply map_eq. intros x. rewrite !enforce_node_consistency_lookup.
  destruct (domains !! x) as [d|]; [|done]. simpl. f_equal.
  apply set_eq. intros w. rewrite !elem_of_filter. tauto.
Qed.

(** ** Further properties: [revise] *)

(** X3: a call of [revise] that returns touches the domain of [x] only.
    When some word of that domain has a support in the domain of [y], the
    domain becomes the set of its supported words; when none has, it stays
    as it was.  The value returned tells whether the domain has changed. *)
Theorem revise_effect (cw : Crossword) (x y : Var) (domains domains' : domains_t)
    (revised : bool)
    (Hcall : revise cw x y domains = Ok (revised, domains')) :
  (∀ z, z ≠ x → domains' !! z = domains !! z) ∧
  ∃ dom_x dom_x' : gset string,
    domains !! x = Some dom_x ∧ domains' !! x = Some dom_x' ∧
    ((∃ w, w ∈ dom_x ∧ supported cw domains x y w) →
     ∀ w, w ∈ dom_x' ↔ w ∈ dom_x ∧ supported cw domains x y w) ∧
    ((∀ w, w ∈ dom_x → ¬ supported cw domains x y w) → dom_x' = dom_x) ∧
    (revised = true ↔ dom_x' ≠ dom_x).
Proof.
  apply revise_Ok in Hcall
    as (o_v1 & o_v2 & dom_x & keep & _ & Hx & Hkeep & Hcase).
  destruct Hcase as [(Hne & -> & ->)|(-> & -> & ->)].
  - split; [intros z ?; by rewrite lookup_insert_ne|].
    exists dom_x, keep. rewrite lookup_insert_eq. split_and!; [done..| | |].
    + intros _ w. apply Hkeep.
    + intros Hnone. destruct Hne. apply set_eq. intros w.
      rewrite Hkeep, elem_of_empty. split; [|done]. intros [? ?]. by eapply Hnone.
    + apply bool_decide_eq_true.
  - split; [done|]. exists dom_x, dom_x. split_and!; [done..| | |].
    + intros (w & Hw & Hsup). assert (w ∈ (∅ : gset string)) as Hin by (by apply Hkeep).
      by apply elem_of_empty in Hin.
    + done.
    + split; [done|]. by intros [].
Qed.

Lemma revise_effect_witness :
  (∀ z, z ≠ slot_A →
     <[slot_A := {["cat"]}%string]> (node_domains cw_cat_ten) !! z =
     node_domains cw_cat_ten !! z) ∧
  ∃ dom_x dom_x' : gset string,
    node_domains cw_cat_ten !! slot_A = Some dom_x ∧
    <[slot_A := {["cat"]}%string]> (node_domains cw_cat_ten) !! slot_A =
      Some dom_x' ∧
    ((∃ w, w ∈ dom_x ∧
           supported cw_cat_ten (node_domains cw_cat_ten) slot_A slot_B w) →
     ∀ w, w ∈ dom_x' ↔
          w ∈ dom_x ∧
          supported cw_cat_ten (node_domains cw_cat_ten) slot_A slot_B w) ∧
    ((∀ w, w ∈ dom_x →
           ¬ supported cw_cat_ten (node_domains cw_cat_ten) slot_A slot_B w) →
     dom_x' = dom_x) ∧
    (true = true ↔ dom_x' ≠ dom_x).
Proof.
  apply (revise_effect cw_cat_ten slot_A slot_B (node_domains cw_cat_ten)).
  reflexivity.
Defined.

(** X4: [revise] never empties a domain: after a call that returns, every
    domain that held a word still holds one, and is part of what it was. *)
Theorem revise_never_empties (cw : Crossword) (x y z : Var)
    (domains domains' : domains_t) (revised : bool) (dom_z : gset string)
    (Hcall : revise cw x y domains = Ok (revised, domains'))
    (Hz : domains !! z = Some dom_z) (Hne : dom_z ≠ ∅) :
  ∃ dom_z' : gset string,
    domains' !! z = Some dom_z' ∧ dom_z' ≠ ∅ ∧ dom_z' ⊆ dom_z.
Proof.
  apply revise_Ok in Hcall
    as (o_v1 & o_v2 & dom_x & keep & _ & Hx & Hkeep & Hcase).
  destruct Hcase as [(Hkne & -> & ->)|(-> & -> & ->)]; [|by exists dom_z].
  destruct (decide (z = x)) as [->|].
  - exists keep. rewrite lookup_insert_eq. split_and!; [done..|].
    assert (dom_z = dom_x) as -> by congruence. intros w. rewrite Hkeep. tauto.
  - exists dom_z. by rewrite lookup_insert_ne.
Qed.

Lemma revise_never_empties_witness :
  ∃ dom_z' : gset string,
    <[slot_A := {["cat"]}%string]> (node_domains cw_cat_ten) !! slot_A =
      Some dom_z' ∧
    dom_z' ≠ ∅ ∧ dom_z' ⊆ {["cat"; "ten"; "ace"]}%string.
Proof.
  apply (revise_never_empties cw_cat_ten slot_A slot_B slot_A
           (node_domains cw_cat_ten) _ true).
  - reflexivity.
  - reflexivity.
  - apply (non_empty_inhabited_L "cat"%string). set_solver.
Defined.

(** ** Further properties: [ac3] *)

(** X5: [ac3] never returns [False], whatever the store, the arcs and the
    number of turns: the test for an empty domain follows a revision that
    has just stored a set with a word in it. *)
Theorem ac3_never_returns_False (cw : Crossword) (fuel : nat)
    (arcs : option (list (Var * Var))) (domains domains' : domains_t) :
  ac3 cw fuel arcs domains ≠ Some (Ok (false, domains')).
Proof. unfold ac3. apply ac3_loop_never_false. Qed.

(** X6: on a well-formed puzzle and store, [ac3] with the default arcs
    raises nothing and returns [True]; the store it leaves has the same
    slots, is still node consistent, and each of its domains is part of
    what it was. *)
Theorem ac3_default_returns_True (cw : Crossword) (domains : domains_t)
    (Hwf : wf_crossword cw) (Hok : store_ok cw domains) :
  ∃ domains',
    ac3 cw (ac3_fuel cw (all_arcs cw domains) domains) None domains =
      Some (Ok (true, domains')) ∧
    dom domains' = dom domains ∧ node_consistent domains' ∧
    shrinks domains domains'.
Proof.
  destruct (ac3_loop_terminates cw (ac3_fuel cw (all_arcs cw domains) domains)
              (all_arcs cw domains) domains) as [r Hr].
  { unfold ac3_fuel. lia. }
  assert (neighbor_arcs cw (all_arcs cw domains)) as Harcs.
  { apply all_arcs_neighbor_arcs. by destruct Hok as [_ ->]. }
  destruct (ac3_loop_ok cw _ _ _ r Hwf Hok Harcs Hr) as (d & -> & [? Hd] & ?).
  exists d. split; [by rewrite ac3_default|]. destruct Hok as [_ Hdom].
  split; [congruence|done].
Qed.

Lemma ac3_default_returns_True_witness :
  ∃ domains',
    ac3 cw_cat_ten
      (ac3_fuel cw_cat_ten (all_arcs cw_cat_ten (node_domains cw_cat_ten))
                (node_domains cw_cat_ten))
      None (node_domains cw_cat_ten) = Some (Ok (true, domains')) ∧
    dom domains' = dom (node_domains cw_cat_ten) ∧ node_consistent domains' ∧
    shrinks (node_domains cw_cat_ten) domains'.
Proof.
  apply (ac3_default_returns_True cw_cat_ten (node_domains cw_cat_ten)
           wf_cat_ten (node_domains_ok cw_cat_ten)).
Defined.

(** A turn of the loop on neighbour arcs keeps the words of a solution. *)
Lemma ac3_step_keeps_solution (cw : Crossword) (queue queue' : list (Var * Var))
    (domains domains' : domains_t) (s : assignment_t) :
  neighbor_arcs cw queue → complete cw s → satisfies cw s →
  drawn_from domains s →
  store_after domains (ac3_step cw queue domains) = domains' →
  drawn_from domains' s.
Proof.
  intros Hq Hs Hsat Hdrawn <-. unfold ac3_step.
  destruct queue as [|[x y] rest]; [done|].
  destruct (Hq x y) as [Hx Hy]; [by left|].
  destruct (revise cw x y domains) as [[revised d]|e] eqn:Hrev; [|done].
  assert (drawn_from d s) as Hd.
  { apply revise_Ok in Hrev
      as (o_v1 & o_v2 & dom_x & keep & Hov & Hdx & Hkeep & Hcase).
    destruct Hcase as [(_ & -> & _)|(_ & -> & _)]; [|done].
    intros x' w Hw. destruct (decide (x' = x)) as [->|].
    - rewrite lookup_insert_eq. exists keep. split; [done|].
      destruct (Hdrawn x w Hw) as (dom_x' & Hdx' & Hwx).
      assert (dom_x' = dom_x) as -> by congruence.
      apply Hkeep. split; [done|].
      assert (∃ wy, s !! y = Some wy) as [wy Hwy].
      { apply elem_of_dom. rewrite Hs. by apply neighbors_subseteq in Hy. }
      destruct (Hsat x y w wy Hw Hwy Hy) as (i & j & Hov' & Hagree & Hne).
      destruct (Hdrawn y wy Hwy) as (dom_y & Hdy & Hwyy).
      by exists i, j, dom_y, wy.
    - rewrite lookup_insert_ne by done. by apply Hdrawn. }
  destruct revised; [|done].
  destruct (getitem d x) as [dom_x|] eqn:Hget; [by case_bool_decide|].
  apply revise_true in Hrev as (_ & keep & Hk & _).
  apply getitem_Ok in Hk. congruence.
Qed.

Lemma ac3_loop_keeps_solution (cw : Crossword) (fuel : nat)
    (queue : list (Var * Var)) (domains domains' : domains_t) (b : bool)
    (s : assignment_t) :
  wf_crossword cw → neighbor_arcs cw queue →
  complete cw s → satisfies cw s → drawn_from domains s →
  ac3_loop cw fuel queue domains = Some (Ok (b, domains')) →
  drawn_from domains' s.
Proof.
  intros Hwf. revert queue domains.
  induction fuel as [|fuel IH]; intros queue domains Hq Hs Hsat Hdrawn; [done|].
  simpl.
  pose proof (ac3_step_keeps_solution cw queue queue domains _ s Hq Hs Hsat
                Hdrawn eq_refl) as Hstep.
  destruct (ac3_step cw queue domains) as [r|queue' d] eqn:Heq.
  - intros [= ->]. done.
  - apply IH; [by eapply ac3_step_neighbor_arcs|done..].
Qed.

(** X7: [ac3] with the default arcs removes no word that a solution uses:
    a complete assignment that satisfies the constraints and takes its
    words from the store before the call takes them from the store after
    it. *)
Theorem ac3_keeps_solutions (cw : Crossword) (fuel : nat)
    (domains domains' : domains_t) (b : bool) (s : assignment_t)
    (Hwf : wf_crossword cw) (Hdom : dom domains ⊆ variables cw)
    (Hcall : ac3 cw fuel None domains = Some (Ok (b, domains')))
    (Hcomplete : complete cw s) (Hsat : satisfies cw s)
    (Hdrawn : drawn_from domains s) :
  drawn_from domains' s.
Proof.
  rewrite ac3_default in Hcall.
  eapply ac3_loop_keeps_solution; [done| |done..].
  by apply all_arcs_neighbor_arcs.
Qed.

Lemma drawn_from_shrinks (domains domains' : domains_t) (s : assignment_t) :
  shrinks domains domains' → drawn_from domains' s → drawn_from domains s.
Proof.
  intros Hshr Hdrawn x w (d' & (d & ? & ?)%Hshr & ?)%Hdrawn.
  exists d. split; [done|]. set_solver.
Qed.

(** The solution of the puzzle with the words cat, ten and ace. *)
Lemma cat_ten_solved :
  complete cw_cat_ten {[slot_A := "cat"; slot_B := "ten"]}%string ∧
  satisfies cw_cat_ten {[slot_A := "cat"; slot_B := "ten"]}%string ∧
  drawn_from {[slot_A := {["cat"]}; slot_B := {["ten"]}]}%string
             {[slot_A := "cat"; slot_B := "ten"]}%string ∧
  drawn_from (node_domains cw_cat_ten)
             {[slot_A := "cat"; slot_B := "ten"]}%string.
Proof.
  pose proof (backtrack_sound cw_cat_ten
    {[slot_A := {["cat"]}; slot_B := {["ten"]}]}%string
    (backtrack_fuel cw_cat_ten ∅) ∅
    {[slot_A := "cat"; slot_B := "ten"]}%string eq_refl) as (Hc & _ & Hs & Hd).
  assert (drawn_from {[slot_A := {["cat"]}; slot_B := {["ten"]}]}%string
            ({[slot_A := "cat"; slot_B := "ten"]}%string : assignment_t)) as Hd'.
  { apply Hd. intros x w Hx. by rewrite lookup_empty in Hx. }
  split_and!; [done|apply Hs, satisfies_empty|done|].
  destruct (preprocessing_ok cw_cat_ten wf_cat_ten) as (d & Hac3 & _ & Hshr).
  rewrite ac3_cat_ten in Hac3. injection Hac3 as <-.
  by eapply drawn_from_shrinks.
Qed.

Lemma ac3_keeps_solutions_witness :
  drawn_from {[slot_A := {["cat"]}; slot_B := {["ten"]}]}%string
             {[slot_A := "cat"; slot_B := "ten"]}%string.
Proof.
  apply (ac3_keeps_solutions cw_cat_ten
    (ac3_fuel cw_cat_ten (all_arcs cw_cat_ten (node_domains cw_cat_ten))
              (node_domains cw_cat_ten))
    (node_domains cw_cat_ten) _ true {[slot_A := "cat"; slot_B := "ten"]}%string).
  - exact wf_cat_ten.
  - by destruct (node_domains_ok cw_cat_ten) as [_ ->].
  - reflexivity.
  - apply cat_ten_solved.
  - apply cat_ten_solved.
  - apply cat_ten_solved.
Defined.

(** ** Further properties: the search *)

(** X8: when [consistent] returns, it returns [True] exactly on the
    assignments in which any two assigned neighbours agree at their overlap
    and hold different words. *)
Theorem consistent_decides (cw : Crossword) (assignment : assignment_t) (b : bool)
    (Hcall : consistent cw assignment = Ok b) :
  b = true ↔ satisfies cw assignment.
Proof.
  destruct b.
  - split; [intros _; by apply consistent_true|done].
  - split; [done|]. intros Hsat. by apply consistent_false in Hcall.
Qed.

Lemma consistent_decides_witness :
  false = true ↔
  satisfies cw_cat_ten {[slot_A := "ace"; slot_B := "ten"]}%string.
Proof.
  apply (consistent_decides cw_cat_ten {[slot_A := "ace"; slot_B := "ten"]}%string).
  reflexivity.
Defined.

(** X9: the slot that [select_unassigned_variable] returns is a slot of the
    puzzle without a word in the assignment, and no such slot has a domain
    with fewer words. *)
Theorem select_unassigned_variable_minimum (cw : Crossword)
    (domains : domains_t) (assignment : assignment_t) (var : Var)
    (Hcall : select_unassigned_variable cw domains assignment = Ok var) :
  var ∈ variables cw ∧ assignment !! var = None ∧
  ∃ d_var : gset string, domains !! var = Some d_var ∧
    ∀ v (d_v : gset string),
      v ∈ variables cw → assignment !! v = None → domains !! v = Some d_v →
      size d_var ≤ size d_v.
Proof.
  apply select_unassigned_variable_Ok in Hcall
    as [[Hvar Hunassigned%not_elem_of_dom]%elem_of_difference (d & Hd & Hmin)].
  split_and!; [done..|]. exists d. split; [done|].
  intros v d_v Hv Hnone%not_elem_of_dom Hdv. apply (Hmin v); [|done].
  by apply elem_of_difference.
Qed.

Lemma select_unassigned_variable_minimum_witness :
  slot_left ∈ variables cw_four ∧ (∅ : assignment_t) !! slot_left = None ∧
  ∃ d_var : gset string, node_domains cw_four !! slot_left = Some d_var ∧
    ∀ v (d_v : gset string),
      v ∈ variables cw_four → (∅ : assignment_t) !! v = None →
      node_domains cw_four !! v = Some d_v → size d_var ≤ size d_v.
Proof.
  apply (select_unassigned_variable_minimum cw_four (node_domains cw_four) ∅).
  reflexivity.
Defined.

(** X10: when every slot of the puzzle has a word in the assignment,
    [select_unassigned_variable] raises [IndexError]: it takes the first
    item of an empty list. *)
Theorem select_unassigned_variable_none_left (cw : Crossword)
    (domains : domains_t) (assignment : assignment_t)
    (Hall : variables cw ⊆ dom assignment) :
  select_unassigned_variable cw domains assignment = Raise IndexError.
Proof.
  unfold select_unassigned_variable.
  assert (variables cw ∖ dom assignment = ∅) as -> by set_solver.
  by rewrite elements_empty.
Qed.

Lemma select_unassigned_variable_none_left_witness :
  select_unassigned_variable cw_cat_ten (node_domains cw_cat_ten)
    {[slot_A := "cat"; slot_B := "ten"]}%string = Raise IndexError.
Proof.
  apply select_unassigned_variable_none_left.
  destruct cat_ten_solved as (-> & _). done.
Defined.

Lemma forM_Raise {A B : Type} (f : A → res B) (l : list A) (e : exn) :
  forM f l = Raise e → ∃ a, a ∈ l ∧ f a = Raise e.
Proof.
  induction l as [|a l IH]; simpl; [done|].
  destruct (f a) as [b|e'] eqn:Hf; simpl.
  - destruct (forM f l) as [bs|e'']; simpl; [done|].
    intros [= ->]. destruct IH as (a' & ? & ?); [done|].
    exists a'. split; [by right|done].
  - intros [= ->]. exists a. split; [by left|done].
Qed.

(** X11: when a slot of the puzzle without a word in the assignment has no
    entry in the store, [select_unassigned_variable] raises [KeyError]. *)
Theorem select_unassigned_variable_missing_domain (cw : Crossword)
    (domains : domains_t) (assignment : assignment_t) (v : Var)
    (Hv : v ∈ variables cw) (Hunassigned : assignment !! v = None)
    (Hmissing : domains !! v = None) :
  select_unassigned_variable cw domains assignment = Raise KeyError.
Proof.
  unfold select_unassigned_variable.
  destruct (forM _ (elements (variables cw ∖ dom assignment)))
    as [remaining|e] eqn:Hrem; simpl.
  - apply forM_Ok in Hrem.
    assert (v ∈ elements (variables cw ∖ dom assignment)) as Hin.
    { apply elem_of_elements, elem_of_difference. split; [done|].
      by apply not_elem_of_dom. }
    apply list_elem_of_lookup in Hin as [k Hk].
    destruct (Forall2_lookup_l _ _ _ _ _ Hrem Hk) as (p & _ & Hp).
    unfold getitem in Hp. by rewrite Hmissing in Hp.
  - apply forM_Raise in Hrem as (v' & _ & Hv').
    unfold getitem in Hv'. destruct (domains !! v'); [done|].
    simpl in Hv'. congruence.
Qed.

Lemma select_unassigned_variable_missing_domain_witness :
  select_unassigned_variable cw_cat_ten ∅ ∅ = Raise KeyError.
Proof.
  apply (select_unassigned_variable_missing_domain cw_cat_ten ∅ ∅ slot_A).
  - simpl. set_solver.
  - apply lookup_empty.
  - apply lookup_empty.
Defined.

(** What [backtrack] adds to the assignment it is given comes from the
    domains of the store. *)
Lemma backtrack_added (cw : Crossword) (domains : domains_t) (fuel : nat)
    (a r : assignment_t) :
  backtrack cw domains fuel a = Some (Ok (Some r)) →
  ∀ x w, r !! x = Some w →
    a !! x = Some w ∨
    (a !! x = None ∧ ∃ dom_x : gset string, domains !! x = Some dom_x ∧ w ∈ dom_x).
Proof.
  revert a. induction fuel as [|fuel IH]; intros a; [done|]. simpl.
  destruct (assignment_complete cw a); [intros [= <-]; auto|].
  destruct (select_unassigned_variable cw domains a) as [var|] eqn:Hsel; [|done].
  destruct (order_domain_values cw domains var a) as [values|] eqn:Hval; [|done].
  intros (value & Hvalue & _ & Hrec)%try_values_Some x w Hx.
  apply select_unassigned_variable_Ok in Hsel as [Hvar%elem_of_difference _].
  destruct Hvar as [_ Hvar%not_elem_of_dom].
  apply order_domain_values_Ok in Hval as (dom_var & Hdv & Hperm & _).
  destruct (IH _ Hrec x w Hx) as [Hnew|[Hnew Hdrawn]].
  - destruct (decide (x = var)) as [->|].
    + rewrite lookup_insert_eq in Hnew. injection Hnew as ->. right.
      split; [done|]. exists dom_var. split; [done|].
      apply elem_of_elements. by rewrite <-Hperm.
    + rewrite lookup_insert_ne in Hnew by done. by left.
  - right. split; [|done]. destruct (decide (x = var)) as [->|]; [done|].
    by rewrite lookup_insert_ne in Hnew.
Qed.

(** X12: an assignment that [backtrack] returns extends the one it was
    given: the words already assigned are kept, and every word added is a
    word of the domain of its slot. *)
Theorem backtrack_extends (cw : Crossword) (domains : domains_t) (fuel : nat)
    (a r : assignment_t)
    (Hcall : backtrack cw domains fuel a = Some (Ok (Some r))) :
  (∀ x w, a !! x = Some w → r !! x = Some w) ∧
  ∀ x w, r !! x = Some w → a !! x = None →
    ∃ dom_x : gset string, domains !! x = Some dom_x ∧ w ∈ dom_x.
Proof.
  split.
  - apply backtrack_sound in Hcall as (_ & Hsub & _).
    intros x w Hx. by eapply lookup_weaken.
  - intros x w Hr Ha.
    destruct (backtrack_added cw domains fuel a r Hcall x w Hr) as [?|[_ ?]];
      [congruence|done].
Qed.

Lemma backtrack_extends_witness :
  (∀ x w, ({[slot_A := "cat"]}%string : assignment_t) !! x = Some w →
          ({[slot_A := "cat"; slot_B := "ten"]}%string : assignment_t) !! x =
          Some w) ∧
  ∀ x w, ({[slot_A := "cat"; slot_B := "ten"]}%string : assignment_t) !! x =
         Some w →
         ({[slot_A := "cat"]}%string : assignment_t) !! x = None →
    ∃ dom_x : gset string, node_domains cw_cat_ten !! x = Some dom_x ∧ w ∈ dom_x.
Proof.
  apply (backtrack_extends cw_cat_ten (node_domains cw_cat_ten) 2
           {[slot_A := "cat"]}%string).
  reflexivity.
Defined.

(** X13: on a well-formed puzzle and store, [backtrack] raises nothing on
    an assignment of slots of the puzzle that takes its words from the
    store: within the bound of [backtrack_fuel] it returns an assignment or
    [None]. *)
Theorem backtrack_never_raises (cw : Crossword) (domains : domains_t)
    (a : assignment_t)
    (Hwf : wf_crossword cw) (Hok : store_ok cw domains)
    (Hdom : dom a ⊆ variables cw) (Hdrawn : drawn_from domains a) :
  ∃ o : option assignment_t,
    backtrack cw domains (backtrack_fuel cw a) a = Some (Ok o).
Proof.
  apply backtrack_total; [done..|]. unfold backtrack_fuel. lia.
Qed.

Lemma backtrack_never_raises_witness :
  ∃ o : option assignment_t,
    backtrack cw_cat_ten (node_domains cw_cat_ten)
      (backtrack_fuel cw_cat_ten ∅) ∅ = Some (Ok o).
Proof.
  apply (backtrack_never_raises cw_cat_ten (node_domains cw_cat_ten) ∅
           wf_cat_ten (node_domains_ok cw_cat_ten)).
  - set_solver.
  - intros x w Hx. by rewrite lookup_empty in Hx.
Defined.

(** ** Further properties: [solve] *)

Lemma drawn_from_node_domains (cw : Crossword) (s : assignment_t) :
  dom s ⊆ variables cw →
  drawn_from (node_domains cw) s ↔
  ∀ x w, s !! x = Some w → w ∈ words cw ∧ String.length w = var_length x.
Proof.
  intros Hdom. split.
  - intros Hdrawn x w (d & Hd & Hw)%Hdrawn.
    rewrite node_domains_lookup in Hd. case_decide; [|done].
    injection Hd as <-. apply elem_of_filter in Hw. tauto.
  - intros Hwords x w Hx. exists (filter (λ d, String.length d = var_length x) (words cw)).
    rewrite node_domains_lookup, decide_True.
    + split; [done|]. apply elem_of_filter. destruct (Hwords x w Hx). done.
    + apply Hdom. by apply elem_of_dom_2 in Hx.
Qed.

(** X14: on a well-formed puzzle [solve] decides whether the puzzle has a
    solution: it raises nothing, and either returns a solution, or returns
    [None] and the puzzle has none. *)
Theorem solve_decides (cw : Crossword) (Hwf : wf_crossword cw) :
  (∃ a, solve cw = Some (Ok (Some a)) ∧ solution cw a) ∨
  (solve cw = Some (Ok None) ∧ ∀ s, ¬ solution cw s).
Proof.
  destruct (preprocessing_ok cw Hwf) as (d & Hac3 & Hok & Hshr).
  rewrite (solve_unfold cw true d Hac3).
  destruct (backtrack_total cw d Hwf Hok (backtrack_fuel cw ∅) ∅)
    as [[a|] Hback].
  { set_solver. }
  { intros x w Hx. by rewrite lookup_empty in Hx. }
  { unfold backtrack_fuel. lia. }
  - left. exists a. split; [done|].
    apply backtrack_sound in Hback as (Hc & _ & Hsat & Hdrawn).
    split; [done|]. split; [apply Hsat, satisfies_empty|].
    apply drawn_from_node_domains; [by rewrite Hc|].
    eapply drawn_from_shrinks; [done|]. apply Hdrawn.
    intros x w Hx. by rewrite lookup_empty in Hx.
  - right. split; [done|]. intros s (Hc & Hsat & Hwords).
    assert (drawn_from d s) as Hdrawn.
    { rewrite ac3_default in Hac3.
      eapply ac3_loop_keeps_solution; [done| |done..| |done].
      - apply all_arcs_neighbor_arcs.
        by destruct (node_domains_ok cw) as [_ ->].
      - apply drawn_from_node_domains; [by rewrite Hc|done]. }
    destruct (backtrack_finds cw d Hwf Hok (backtrack_fuel cw ∅) ∅ s)
      as [r Hr]; [done..|apply map_empty_subseteq|unfold backtrack_fuel; lia|].
    congruence.
Qed.

Lemma wf_cat_dog : wf_crossword cw_cat_dog.
Proof. apply wf_crossword_check. reflexivity. Qed.

Lemma solve_decides_witness :
  (∃ a, solve cw_cat_dog = Some (Ok (Some a)) ∧ solution cw_cat_dog a) ∨
  (solve cw_cat_dog = Some (Ok None) ∧ ∀ s, ¬ solution cw_cat_dog s).
Proof. apply (solve_decides cw_cat_dog wf_cat_dog). Defined.

(** ** Further properties: a second run of [ac3] *)

Section ac3_idempotent.
Context (cw : Crossword).
Implicit Types (domains : domains_t) (x y : Var) (queue : list (Var * Var)).

Lemma agree_sym (i j : nat) (wx wy : string) : agree i j wx wy → agree j i wy wx.
Proof. intros (c & ? & ?). by exists c. Qed.

Lemma supported_insert_ne domains x (keep : gset string) a b w :
  b ≠ x → supported cw (<[x := keep]> domains) a b w ↔ supported cw domains a b w.
Proof.
  intros Hne. unfold supported. by setoid_rewrite (lookup_insert_ne domains x b keep).
Qed.

Lemma stable_insert_ne domains x (keep : gset string) a b :
  a ≠ x → b ≠ x →
  stable cw domains a b → stable cw (<[x := keep]> domains) a b.
Proof.
  intros Ha Hb Hst dom_a. rewrite lookup_insert_ne by done.
  intros [Hall|Hnone]%Hst; [left|right]; intros w Hw;
    rewrite supported_insert_ne by done; auto.
Qed.

(** [revise] reports no change exactly on the stable arcs. *)
Lemma revise_stable x y domains revised domains' :
  revise cw x y domains = Ok (revised, domains') →
  revised = false ↔ stable cw domains x y.
Proof.
  intros (o_v1 & o_v2 & dom_x & keep & _ & Hx & Hkeep & Hcase)%revise_Ok.
  split.
  - intros ->. intros d Hd. assert (d = dom_x) as -> by congruence.
    destruct Hcase as [(_ & _ & Heq)|(-> & _ & _)].
    + left. symmetry in Heq. apply bool_decide_eq_false in Heq.
      apply dec_stable in Heq as <-. intros w. rewrite Hkeep. tauto.
    + right. intros w Hw Hsup.
      assert (w ∈ (∅ : gset string)) as Hin by (by apply Hkeep).
      by apply elem_of_empty in Hin.
  - intros Hst. destruct Hcase as [(Hne & _ & ->)|(_ & _ & ->)]; [|done].
    apply bool_decide_eq_false. intros Hneq.
    destruct (Hst dom_x Hx) as [Hall|Hnone].
    + apply Hneq, set_eq. intros w. rewrite Hkeep. split; [tauto|]. auto.
    + apply Hne, set_eq. intros w. rewrite Hkeep, elem_of_empty.
      split; [|done]. intros [? ?]. by eapply Hnone.
Qed.

Lemma settled_step queue domains queue' domains' :
  wf_crossword cw → irreflexive_overlaps cw → neighbor_arcs cw queue →
  settled cw queue domains →
  ac3_step cw queue domains = Continue queue' domains' →
  settled cw queue' domains'.
Proof.
  intros Hwf Hirr Hq Hset. unfold ac3_step.
  destruct queue as [|[x y] rest]; [done|].
  destruct (Hq x y) as [Hx Hy]; [by left|].
  assert (y ≠ x) as Hyx.
  { intros ->. apply elem_of_neighbors in Hy as [[? Hsome] _].
    by rewrite Hirr in Hsome. }
  destruct (revise cw x y domains) as [[revised d]|e] eqn:Hrev; [|done].
  destruct revised.
  - destruct (getitem d x) as [dx0|e0]; [|done]. case_bool_decide; [done|].
    intros [= <- <-].
    apply revise_Ok in Hrev
      as (o_v1 & o_v2 & dom_x & keep & Hov & Hdx & Hkeep & Hcase).
    destruct Hcase as [(Hne & -> & _)|(_ & _ & ?)]; [|done].
    intros a b Ha Hb.
    assert (b ≠ a) as Hba.
    { intros ->. apply elem_of_neighbors in Hb as [[? Hsome] _].
      by rewrite Hirr in Hsome. }
    destruct (decide (b = x)) as [->|Hbx].
    + (* an arc into [x] *)
      destruct (decide (a = y)) as [->|Hay].
      * destruct (Hset y x Ha Hb) as [Hin|Hst].
        { left. apply elem_of_app. left.
          apply elem_of_cons in Hin as [[= ? ?]|?]; [congruence|done]. }
        right. intros dom_y. rewrite lookup_insert_ne by done. intros Hdy.
        destruct (Hst dom_y Hdy) as [Hall|Hnone]; [left|right]; intros wy Hwy.
        -- destruct (Hall wy Hwy) as (i & j & d' & wx & Hov' & Hd' & Hwx & Hag & Hneq).
           assert (d' = dom_x) as -> by congruence.
           exists i, j, keep, wx. rewrite lookup_insert_eq.
           split_and!; [done..| |done|done].
           apply Hkeep. split; [done|].
           destruct (wf_pair_Some cw y x i j) as (_ & _ & Hsym);
             [by apply Hwf|done|].
           exists j, i, dom_y, wy. split_and!; [done..|by apply agree_sym|done].
        -- intros (i & j & d' & wx & Hov' & Hd' & Hwx & Hag & Hneq).
           rewrite lookup_insert_eq in Hd'. injection Hd' as <-.
           apply (Hnone wy Hwy). exists i, j, dom_x, wx.
           split_and!; [done..| |done|done]. apply Hkeep in Hwx. tauto.
      * left. apply elem_of_app. right. apply list_elem_of_fmap.
        exists a. split; [done|]. apply elem_of_elements, elem_of_difference.
        split; [by apply wf_neighbors_sym|]. by rewrite elem_of_singleton.
    + destruct (decide (a = x)) as [->|Hax].
      * (* an arc out of [x] *)
        destruct (decide (b = y)) as [->|Hby].
        -- right. intros d'. rewrite lookup_insert_eq. intros [= <-]. left.
           intros w Hw. rewrite supported_insert_ne by done. by apply Hkeep.
        -- destruct (Hset x b Ha Hb) as [Hin|Hst].
           { left. apply elem_of_app. left.
             apply elem_of_cons in Hin as [[= ?]|?]; [congruence|done]. }
           right. intros d'. rewrite lookup_insert_eq. intros [= <-].
           destruct (Hst dom_x Hdx) as [Hall|Hnone]; [left|right]; intros w Hw;
             rewrite supported_insert_ne by done;
             apply Hkeep in Hw as [Hw _]; auto.
      * destruct (Hset a b Ha Hb) as [Hin|Hst].
        { left. apply elem_of_app. left.
          apply elem_of_cons in Hin as [[= ? ?]|?]; [congruence|done]. }
        right. by apply stable_insert_ne.
  - intros [= <- <-]. pose proof Hrev as Hrev'.
    apply revise_false in Hrev' as ->.
    intros a b Ha Hb. destruct (Hset a b Ha Hb) as [Hin|Hst]; [|by right].
    apply elem_of_cons in Hin as [[= -> ->]|?]; [|by left].
    right. by eapply revise_stable.
Qed.

Lemma settled_loop fuel queue domains (b : bool) domains' :
  wf_crossword cw → irreflexive_overlaps cw → neighbor_arcs cw queue →
  settled cw queue domains →
  ac3_loop cw fuel queue domains = Some (Ok (b, domains')) →
  settled cw [] domains'.
Proof.
  intros Hwf Hirr. revert queue domains.
  induction fuel as [|fuel IH]; intros queue domains Hq Hset; [done|]. simpl.
  destruct (ac3_step cw queue domains) as [r|queue' d] eqn:Hstep.
  - intros [= ->]. unfold ac3_step in Hstep.
    destruct queue as [|[x y] rest].
    + by simplify_eq.
    + destruct (revise cw x y domains) as [[[] d]|e] eqn:Hrev; [|done..].
      apply revise_true in Hrev as (_ & keep & Hk & Hne).
      apply getitem_Ok in Hk. rewrite Hk in Hstep.
      case_bool_decide as Hsize; [|done].
      by apply size_empty_inv, leibniz_equiv in Hsize.
  - apply IH; [by eapply ac3_step_neighbor_arcs|by eapply settled_step].
Qed.

(** On a queue of stable arcs the loop changes nothing. *)
Lemma ac3_loop_stable fuel queue domains :
  wf_crossword cw → store_ok cw domains → neighbor_arcs cw queue →
  (∀ x y, (x, y) ∈ queue → stable cw domains x y) →
  length queue < fuel →
  ac3_loop cw fuel queue domains = Some (Ok (true, domains)).
Proof.
  intros Hwf Hok. revert fuel.
  induction queue as [|[x y] rest IH]; intros fuel Hq Hst Hlt;
    (destruct fuel as [|fuel]; [lia|]); [done|]. simpl.
  destruct (Hq x y) as [Hx Hy]; [by left|].
  destruct (revise_total_ok cw x y domains Hwf Hok Hx) as (revised & d & Hrev).
  { by apply neighbors_subseteq in Hy. }
  { by apply elem_of_neighbors in Hy as [? _]. }
  rewrite Hrev.
  assert (revised = false) as ->.
  { eapply revise_stable; [done|]. apply Hst. by left. }
  apply revise_false in Hrev as ->.
  apply IH; [| |simpl in Hlt; lia].
  - intros a b ?. apply Hq. by right.
  - intros a b ?. apply Hst. by right.
Qed.

(** X15: [ac3] is idempotent.  On a well-formed puzzle in which no slot
    overlaps itself, a run of [ac3] with the default arcs on the store that
    such a run has left returns [True] and leaves that store as it is. *)
Theorem ac3_idempotent domains domains' (fuel : nat) (b : bool)
    (Hwf : wf_crossword cw) (Hirr : irreflexive_overlaps cw)
    (Hok : store_ok cw domains)
    (Hcall : ac3 cw fuel None domains = Some (Ok (b, domains'))) :
  ac3 cw (ac3_fuel cw (all_arcs cw domains') domains') None domains' =
  Some (Ok (true, domains')).
Proof.
  rewrite ac3_default in Hcall |- *.
  assert (neighbor_arcs cw (all_arcs cw domains)) as Harcs.
  { apply all_arcs_neighbor_arcs. by destruct Hok as [_ ->]. }
  destruct (ac3_loop_ok cw _ _ _ _ Hwf Hok Harcs Hcall) as (d & [= -> <-] & Hok' & _).
  assert (settled cw [] domains') as Hset.
  { eapply settled_loop; [done..| |done].
    intros x y Hx Hy. left. apply elem_of_all_arcs. split; [|done].
    by destruct Hok as [_ ->]. }
  apply ac3_loop_stable; [done..| | |unfold ac3_fuel; lia].
  - apply all_arcs_neighbor_arcs. by destruct Hok' as [_ ->].
  - intros x y [Hx Hy]%elem_of_all_arcs.
    destruct (Hset x y) as [[]%elem_of_nil|?]; [|done..].
    by destruct Hok' as [_ <-].
Qed.
End ac3_idempotent.

Lemma irreflexive_cat_ten : irreflexive_overlaps cw_cat_ten.
Proof.
  intros x Hx. simpl in Hx.
  apply elem_of_union in Hx as [->%elem_of_singleton| ->%elem_of_singleton];
    reflexivity.
Qed.

Lemma ac3_idempotent_witness :
  ac3 cw_cat_ten
    (ac3_fuel cw_cat_ten
       (all_arcs cw_cat_ten {[slot_A := {["cat"]}; slot_B := {["ten"]}]}%string)
       {[slot_A := {["cat"]}; slot_B := {["ten"]}]}%string)
    None {[slot_A := {["cat"]}; slot_B := {["ten"]}]}%string =
  Some (Ok (true, {[slot_A := {["cat"]}; slot_B := {["ten"]}]}%string)).
Proof.
  apply (ac3_idempotent cw_cat_ten (node_domains cw_cat_ten) _
    (ac3_fuel cw_cat_ten (all_arcs cw_cat_ten (node_domains cw_cat_ten))
              (node_domains cw_cat_ten)) true
    wf_cat_ten irreflexive_cat_ten (node_domains_ok cw_cat_ten)).
  reflexivity.
Defined.

(** ** Further properties: [letter_grid] *)

Section letter_grid.
Context (width height : nat).
Implicit Types (letters g : grid_t) (i j k : nat) (c : ascii)
  (W : nat → nat → ascii → Prop).

Lemma get_Some_lt (w : string) k c :
  String.get k w = Some c → k < String.length w.
Proof.
  revert k. induction w as [|a w IH]; intros k; simpl; [done|].
  destruct k; [lia|]. intros ?%IH. lia.
Qed.

Lemma blank_grid_shape : grid_shape width height (blank_grid width height).
Proof.
  split; [apply length_replicate|]. apply Forall_replicate, length_replicate.
Qed.

Lemma blank_grid_get i j : grid_get (blank_grid width height) i j = None.
Proof.
  unfold grid_get, blank_grid.
  destruct (replicate height (replicate width None) !! i) as [row|] eqn:Hrow;
    [|done].
  apply lookup_replicate in Hrow as [-> _].
  destruct (replicate width None !! j) as [c|] eqn:Hc; [|done].
  by apply lookup_replicate in Hc as [-> _].
Qed.

Lemma grid_shape_row g i row :
  grid_shape width height g → g !! i = Some row → length row = width.
Proof.
  intros [_ Hrows] Hi. rewrite Forall_forall in Hrows. apply Hrows.
  by eapply list_elem_of_lookup_2.
Qed.

(** A write succeeds exactly inside the array, keeps its shape, and changes
    the one cell. *)
Lemma grid_setitem_in_range g i j c :
  grid_shape width height g → i < height → j < width →
  ∃ g', grid_setitem g i j c = Ok g'.
Proof.
  intros Hshape Hi Hj. unfold grid_setitem.
  destruct (lookup_lt_is_Some_2 g i) as [row Hrow]; [by destruct Hshape as [-> _]|].
  rewrite Hrow, decide_True; [eauto|].
  by rewrite (grid_shape_row g i row).
Qed.

Lemma grid_setitem_Ok g i j c g' :
  grid_shape width height g → grid_setitem g i j c = Ok g' →
  i < height ∧ j < width ∧ grid_shape width height g' ∧
  grid_get g' i j = Some c ∧
  ∀ i' j', (i', j') ≠ (i, j) → grid_get g' i' j' = grid_get g i' j'.
Proof.
  intros Hshape. unfold grid_setitem.
  destruct (g !! i) as [row|] eqn:Hrow; [|done].
  case_decide as Hj; [|done]. intros [= <-].
  pose proof (grid_shape_row g i row Hshape Hrow) as Hlen.
  assert (i < length g) as Hi by (by eapply lookup_lt_Some).
  destruct Hshape as [Hh Hrows]. split_and!; [lia|lia| | |].
  - split; [by rewrite length_insert|].
    apply Forall_insert; [done|]. by rewrite length_insert.
  - unfold grid_get. rewrite list_lookup_insert_eq by done.
    by rewrite list_lookup_insert_eq by done.
  - intros i' j' Hne. unfold grid_get.
    destruct (decide (i' = i)) as [->|].
    + rewrite list_lookup_insert_eq, Hrow by done.
      rewrite list_lookup_insert_ne; [done|]. congruence.
    + by rewrite list_lookup_insert_ne.
Qed.

Lemma grid_setitem_Raise g i j c e :
  grid_setitem g i j c = Raise e → e = IndexError.
Proof.
  unfold grid_setitem. destruct (g !! i); [case_decide|]; congruence.
Qed.

Lemma write_letter_Ok variable word g k g' :
  write_letter variable word g k = Ok g' →
  ∃ c, String.get k word = Some c ∧
       grid_setitem g (cell variable k).1 (cell variable k).2 c = Ok g'.
Proof.
  unfold write_letter. intros (c & Hc%index_Ok & Hset)%bind_Ok. by exists c.
Qed.

Lemma grid_records_ext W W' g :
  (∀ i j c, W i j c ↔ W' i j c) → grid_records W g → grid_records W' g.
Proof.
  intros Hext HW i j. destruct (HW i j) as [Hsome Hnone]. split.
  - intros c ?. by apply Hext, Hsome.
  - intros Hget c ?%Hext. by eapply Hnone.
Qed.

(** The loop on [k]: the shape is kept, every letter it handles lies in
    the array, and the letters are recorded at their cells. *)
Lemma write_letters_Ok variable word (ks : list nat) W g g' :
  grid_shape width height g → grid_records W g →
  foldlM (write_letter variable word) g ks = Ok g' →
  grid_shape width height g' ∧
  (∀ k, k ∈ ks → (cell variable k).1 < height ∧ (cell variable k).2 < width) ∧
  grid_records (λ i j c, W i j c ∨
    ∃ k, k ∈ ks ∧ cell variable k = (i, j) ∧ String.get k word = Some c) g'.
Proof.
  revert W g. induction ks as [|k ks IH]; intros W g Hshape HW; simpl.
  { intros [= <-]. split; [done|]. split; [by intros k []%elem_of_nil|].
    eapply grid_records_ext; [|done]. intros i j c. split; [auto|].
    by intros [?|(k & []%elem_of_nil & _)]. }
  intros (g1 & (c & Hc & Hset)%write_letter_Ok & Hrest)%bind_Ok.
  destruct (cell variable k) as [ci cj] eqn:Hcell. simpl in Hset.
  apply grid_setitem_Ok in Hset as (Hi & Hj & Hshape1 & Hget & Hother); [|done].
  destruct (IH (λ i j c', W i j c' ∨
                 ((ci, cj) = (i, j) ∧ String.get k word = Some c'))
              g1 Hshape1) with (2 := Hrest) as (Hshape' & Hin & Hrec).
  { intros i j. destruct (decide ((i, j) = (ci, cj))) as [[= -> ->]|Hne].
    - rewrite Hget. split; [|done]. intros c' [= <-]. by right.
    - rewrite Hother by done. destruct (HW i j) as [Hsome Hnone]. split.
      + intros c' ?. left. by apply Hsome.
      + intros Hnone' c' [?|[? _]]; [by eapply Hnone|congruence]. }
  split; [done|]. split.
  - intros k' [->|?]%elem_of_cons; [|by apply Hin].
    change ((cell variable k).1 < height ∧ (cell variable k).2 < width).
    by rewrite Hcell.
  - eapply grid_records_ext; [|done]. intros i j c'. split.
    + intros [[?|[? ?]]|(k' & ? & ? & ?)]; [by left| |].
      * right. exists k. split; [by left|]. by rewrite Hcell.
      * right. exists k'. split; [by right|done].
    + intros [?|(k' & [->|?]%elem_of_cons & Hck & ?)]; [by left;left| |].
      * left. right. rewrite Hcell in Hck. done.
      * right. by exists k'.
Qed.

Lemma foldlM_cons {A B : Type} (f : B → A → res B) (b : B) (a : A) (l : list A) :
  foldlM f b (a :: l) = f b a ≫= λ b', foldlM f b' l.
Proof. reflexivity. Qed.

Lemma write_letter_in_range variable word g k :
  grid_shape width height g → k < String.length word →
  (cell variable k).1 < height → (cell variable k).2 < width →
  ∃ g', write_letter variable word g k = Ok g' ∧ grid_shape width height g'.
Proof.
  intros Hshape Hk Hi Hj. unfold write_letter.
  destruct (index_in_range word k Hk) as [c ->].
  destruct (grid_setitem_in_range g _ _ c Hshape Hi Hj) as [g1 Hg1].
  exists g1. split; [done|].
  by apply grid_setitem_Ok in Hg1 as (_ & _ & ? & _).
Qed.

Lemma write_letters_total variable word (ks : list nat) g :
  grid_shape width height g →
  (∀ k, k ∈ ks → k < String.length word ∧
                 (cell variable k).1 < height ∧ (cell variable k).2 < width) →
  ∃ g', foldlM (write_letter variable word) g ks = Ok g' ∧
        grid_shape width height g'.
Proof.
  revert g. induction ks as [|k ks IH]; intros g Hshape Hks; [by exists g|].
  destruct (Hks k) as (Hk & Hi & Hj); [by left|].
  destruct (write_letter_in_range variable word g k) as (g1 & Hg1 & Hshape1);
    [done..|].
  rewrite foldlM_cons, Hg1. apply IH; [done|].
  intros k' ?. apply Hks. by right.
Qed.

Lemma write_letters_Raise variable word (ks : list nat) g e :
  (∀ k, k ∈ ks → k < String.length word) →
  foldlM (write_letter variable word) g ks = Raise e → e = IndexError.
Proof.
  intros Hks (g' & k & Hk & Hraise)%foldlM_Raise. unfold write_letter in Hraise.
  destruct (index_in_range word k (Hks k Hk)) as [c Hc]. rewrite Hc in Hraise.
  by apply grid_setitem_Raise in Hraise.
Qed.

(** The loop on the items. *)
Lemma write_words_Ok (items : list (Var * string)) W g g' :
  grid_shape width height g → grid_records W g →
  foldlM write_word g items = Ok g' →
  grid_shape width height g' ∧
  (∀ variable word, (variable, word) ∈ items → fits width height variable word) ∧
  grid_records (λ i j c, W i j c ∨
    ∃ variable word k, (variable, word) ∈ items ∧ cell variable k = (i, j) ∧
                       String.get k word = Some c) g'.
Proof.
  revert W g. induction items as [|[x w] items IH]; intros W g Hshape HW; simpl.
  { intros [= <-]. split; [done|]. split; [by intros ?? []%elem_of_nil|].
    eapply grid_records_ext; [|done]. intros i j c. split; [auto|].
    by intros [?|(? & ? & ? & []%elem_of_nil & _)]. }
  intros (g1 & Hword & Hrest)%bind_Ok. unfold write_word in Hword. simpl in Hword.
  destruct (write_letters_Ok x w _ W g g1 Hshape HW Hword)
    as (Hshape1 & Hin1 & Hrec1).
  destruct (IH _ g1 Hshape1 Hrec1 Hrest) as (Hshape' & Hfits & Hrec).
  split; [done|]. split.
  - intros x' w' [[= -> ->]|?]%elem_of_cons; [|by apply Hfits].
    intros k Hk. apply Hin1, elem_of_seq. lia.
  - eapply grid_records_ext; [|done]. intros i j c. split.
    + intros [[?|(k & _ & ? & ?)]|(x' & w' & k & ? & ? & ?)]; [by left| |].
      * right. exists x, w, k. split; [by left|done].
      * right. exists x', w', k. split; [by right|done].
    + intros [?|(x' & w' & k & [[= -> ->]|?]%elem_of_cons & Hcell & Hget)];
        [by left;left| |].
      * left. right. exists k. split; [|done].
        apply elem_of_seq. apply get_Some_lt in Hget. lia.
      * right. by exists x', w', k.
Qed.

Lemma write_words_total (items : list (Var * string)) g :
  grid_shape width height g →
  (∀ variable word, (variable, word) ∈ items → fits width height variable word) →
  ∃ g', foldlM write_word g items = Ok g'.
Proof.
  revert g. induction items as [|[x w] items IH]; intros g Hshape Hfits;
    [by exists g|].
  destruct (write_letters_total x w (seq 0 (String.length w)) g Hshape)
    as (g1 & Hg1 & Hshape1).
  { intros k [_ Hk]%elem_of_seq. split; [lia|]. apply (Hfits x w); [by left|lia]. }
  rewrite foldlM_cons.
  change (write_word g (x, w))
    with (foldlM (write_letter x w) g (seq 0 (String.length w))).
  rewrite Hg1.
  apply IH; [done|]. intros x' w' ?. apply Hfits. by right.
Qed.

Lemma write_words_Raise (items : list (Var * string)) g e :
  foldlM write_word g items = Raise e → e = IndexError.
Proof.
  intros (g' & [x w] & _ & Hraise)%foldlM_Raise.
  apply write_letters_Raise in Hraise; [done|].
  intros k [_ ?]%elem_of_seq. simpl in *. lia.
Qed.
End letter_grid.

(** X16: when every assigned word lies in the grid, [letter_grid] returns
    an array of [height] rows of [width] cells. *)
Theorem letter_grid_shape (width height : nat) (assignment : assignment_t)
    (Hfits : ∀ variable word, assignment !! variable = Some word →
                              fits width height variable word) :
  ∃ letters, letter_grid width height assignment = Ok letters ∧
             length letters = height ∧
             Forall (λ row, length row = width) letters.
Proof.
  destruct (write_words_total width height (map_to_list assignment)
              (blank_grid width height)) as [g Hg].
  { apply blank_grid_shape. }
  { intros x w ?%elem_of_map_to_list. by apply Hfits. }
  exists g. split; [done|].
  eapply (write_words_Ok width height _ (λ _ _ _, False)) in Hg as [Hshape _];
    [done|apply blank_grid_shape|].
  intros i j. rewrite blank_grid_get. split; [done|auto].
Qed.

(** X17: when a letter of an assigned word falls outside the grid,
    [letter_grid] raises [IndexError]. *)
Theorem letter_grid_outside (width height : nat) (assignment : assignment_t)
    (variable : Var) (word : string) (k : nat)
    (Hword : assignment !! variable = Some word)
    (Hk : k < String.length word)
    (Hout : height ≤ (cell variable k).1 ∨ width ≤ (cell variable k).2) :
  letter_grid width height assignment = Raise IndexError.
Proof.
  unfold letter_grid.
  destruct (foldlM write_word (blank_grid width height) (map_to_list assignment))
    as [g|e] eqn:Hg.
  - eapply (write_words_Ok width height _ (λ _ _ _, False)) in Hg as (_ & Hfits & _).
    + destruct (Hfits variable word) with (k := k); [|done|lia].
      by apply elem_of_map_to_list.
    + apply blank_grid_shape.
    + intros i j. rewrite blank_grid_get. split; [done|auto].
  - by apply write_words_Raise in Hg as ->.
Qed.

(** X18: in the array that [letter_grid] returns, a cell holds a letter
    only when some assigned word has that letter at that cell, and a cell
    that some assigned word covers holds a letter. *)
Theorem letter_grid_cells (width height : nat) (assignment : assignment_t)
    (letters : grid_t) (i j : nat)
    (Hcall : letter_grid width height assignment = Ok letters) :
  (∀ c, grid_get letters i j = Some c →
        ∃ variable word k, assignment !! variable = Some word ∧
                           cell variable k = (i, j) ∧
                           String.get k word = Some c) ∧
  (∀ variable word k, assignment !! variable = Some word →
                      k < String.length word → cell variable k = (i, j) →
                      ∃ c, grid_get letters i j = Some c).
Proof.
  eapply (write_words_Ok width height _ (λ _ _ _, False)) in Hcall
    as (_ & _ & Hrec).
  2:{ apply blank_grid_shape. }
  2:{ intros i' j'. rewrite blank_grid_get. split; [done|auto]. }
  destruct (Hrec i j) as [Hsome Hnone]. split.
  - intros c [[]|(x & w & k & Hin%elem_of_map_to_list & ? & ?)]%Hsome.
    by exists x, w, k.
  - intros x w k Hx Hk Hcell.
    destruct (grid_get letters i j) as [c|] eqn:Hget; [eauto|].
    destruct (get_is_Some w k Hk) as [c Hc].
    destruct (Hnone eq_refl c). right. exists x, w, k.
    split; [by apply elem_of_map_to_list|done].
Qed.

(** X19: when the assigned words agree wherever two of them meet in a
    cell, the array that [letter_grid] returns shows every assigned word at
    the cells of its slot. *)
Theorem letter_grid_shows_words (width height : nat) (assignment : assignment_t)
    (letters : grid_t) (variable : Var) (word : string) (k : nat) (c : ascii)
    (Hcall : letter_grid width height assignment = Ok letters)
    (Hagree : ∀ x y wx wy kx ky cx cy,
        assignment !! x = Some wx → assignment !! y = Some wy →
        cell x kx = cell y ky →
        String.get kx wx = Some cx → String.get ky wy = Some cy → cx = cy)
    (Hword : assignment !! variable = Some word)
    (Hc : String.get k word = Some c) :
  grid_get letters (cell variable k).1 (cell variable k).2 = Some c.
Proof.
  eapply (write_words_Ok width height _ (λ _ _ _, False)) in Hcall
    as (_ & _ & Hrec).
  2:{ apply blank_grid_shape. }
  2:{ intros i' j'. rewrite blank_grid_get. split; [done|auto]. }
  destruct (Hrec (cell variable k).1 (cell variable k).2) as [Hsome Hnone].
  destruct (grid_get letters _ _) as [c'|] eqn:Hget.
  - destruct (Hsome c' eq_refl) as [[]|(x & w & k' & Hin%elem_of_map_to_list & Hcell & Hc')].
    f_equal. eapply (Hagree x variable w word k' k); [done..| |done|done].
    by rewrite Hcell, <-surjective_pairing.
  - destruct (Hnone eq_refl c). right. exists variable, word, k.
    split; [by apply elem_of_map_to_list|]. by rewrite <-surjective_pairing.
Qed.

Lemma cat_ten_items (variable : Var) (word : string) :
  ({[slot_A := "cat"; slot_B := "ten"]}%string : assignment_t) !! variable =
    Some word →
  (variable = slot_A ∧ word = "cat"%string) ∨
  (variable = slot_B ∧ word = "ten"%string).
Proof.
  rewrite lookup_insert_Some, lookup_singleton_Some. naive_solver.
Qed.

Lemma cat_ten_grid :
  letter_grid 3 3 {[slot_A := "cat"; slot_B := "ten"]}%string =
  Ok [[Some "c"; Some "a"; Some "t"]; [None; None; Some "e"];
      [None; None; Some "n"]]%char.
Proof. reflexivity. Qed.

Lemma letter_grid_shape_witness :
  ∃ letters,
    letter_grid 3 3 {[slot_A := "cat"; slot_B := "ten"]}%string = Ok letters ∧
    length letters = 3 ∧ Forall (λ row, length row = 3) letters.
Proof.
  apply letter_grid_shape.
  intros variable word [[-> ->]|[-> ->]]%cat_ten_items k Hk;
    unfold cell; simpl in *; lia.
Defined.

Lemma letter_grid_outside_witness :
  letter_grid 3 2 {[slot_A := "cat"; slot_B := "ten"]}%string = Raise IndexError.
Proof.
  apply (letter_grid_outside 3 2 _ slot_B "ten" 2).
  - reflexivity.
  - simpl. lia.
  - left. unfold cell. simpl. lia.
Defined.

Lemma letter_grid_cells_witness :
  (∀ c, grid_get [[Some "c"; Some "a"; Some "t"]; [None; None; Some "e"];
                  [None; None; Some "n"]]%char 1 2 = Some c →
        ∃ variable word k,
          ({[slot_A := "cat"; slot_B := "ten"]}%string : assignment_t)
            !! variable = Some word ∧
          cell variable k = (1, 2) ∧ String.get k word = Some c) ∧
  (∀ variable word k,
     ({[slot_A := "cat"; slot_B := "ten"]}%string : assignment_t)
       !! variable = Some word →
     k < String.length word → cell variable k = (1, 2) →
     ∃ c, grid_get [[Some "c"; Some "a"; Some "t"]; [None; None; Some "e"];
                    [None; None; Some "n"]]%char 1 2 = Some c).
Proof.
  apply (letter_grid_cells 3 3 {[slot_A := "cat"; slot_B := "ten"]}%string).
  exact cat_ten_grid.
Defined.

Lemma cat_ten_agree (x y : Var) (wx wy : string) (kx ky : nat) (cx cy : ascii) :
  ({[slot_A := "cat"; slot_B := "ten"]}%string : assignment_t) !! x = Some wx →
  ({[slot_A := "cat"; slot_B := "ten"]}%string : assignment_t) !! y = Some wy →
  cell x kx = cell y ky →
  String.get kx wx = Some cx → String.get ky wy = Some cy → cx = cy.
Proof.
  intros [[-> ->]|[-> ->]]%cat_ten_items [[-> ->]|[-> ->]]%cat_ten_items;
    unfold cell; simpl; intros [= ] Hx Hy; simplify_eq/=; congruence.
Qed.

Lemma letter_grid_shows_words_witness :
  grid_get [[Some "c"; Some "a"; Some "t"]; [None; None; Some "e"];
            [None; None; Some "n"]]%char
           (cell slot_B 1).1 (cell slot_B 1).2 = Some "e"%char.
Proof.
  apply (letter_grid_shows_words 3 3 {[slot_A := "cat"; slot_B := "ten"]}%string
           _ slot_B "ten" 1 "e").
  - exact cat_ten_grid.
  - exact cat_ten_agree.
  - reflexivity.
  - reflexivity.
Defined.

(** ** Further properties: errors and edges *)

Lemma foldlM_raises {A B : Type} (f : B → A → res B) (b : B) (l : list A) (a : A) :
  a ∈ l → (∀ b', ∃ e, f b' a = Raise e) → ∃ e, foldlM f b l = Raise e.
Proof.
  intros Ha Hf. revert b. induction l as [|a' l IH]; intros b;
    [by apply elem_of_nil in Ha|]. simpl.
  apply elem_of_cons in Ha as [->|Ha].
  { destruct (Hf b) as [e ->]. simpl. eauto. }
  destruct (f b a') as [b'|e]; simpl; [by apply IH|eauto].
Qed.

(** X20: when the two slots have an overlap and are both in the store, and
    a word of the domain of [x] is too short for the index of the overlap,
    [revise] raises [IndexError]. *)
Theorem revise_short_word (cw : Crossword) (x y : Var) (domains : domains_t)
    (o_v1 o_v2 : nat) (dom_x dom_y : gset string) (w : string)
    (Hov : overlaps cw x y = Some (o_v1, o_v2))
    (Hx : domains !! x = Some dom_x) (Hy : domains !! y = Some dom_y)
    (Hw : w ∈ dom_x) (Hshort : String.length w ≤ o_v1) :
  revise cw x y domains = Raise IndexError.
Proof.
  assert (String.get o_v1 w = None) as Hget.
  { destruct (String.get o_v1 w) as [c|] eqn:Hc; [|done].
    apply index_Ok in Hc. clear -Hc Hshort. exfalso.
    revert o_v1 Hc Hshort. induction w as [|a w IH]; intros k; [done|].
    destruct k; simpl; [lia|]. unfold index. simpl. intros Hc ?.
    apply (IH k); [|lia]. done. }
  unfold revise. rewrite Hov. simpl.
  apply getitem_Ok in Hx as ->. simpl.
  destruct (foldlM (revise_outer domains y o_v1 o_v2) ∅ (elements dom_x))
    as [keep|e] eqn:Hfold.
  - destruct (foldlM_raises (revise_outer domains y o_v1 o_v2) ∅
                (elements dom_x) w) as [e He]; [by apply elem_of_elements| |congruence].
    intros keep'. exists IndexError. unfold revise_outer, index. by rewrite Hget.
  - simpl. f_equal. apply foldlM_Raise in Hfold as (keep & dx & _ & Hraise).
    unfold revise_outer, index in Hraise.
    destruct (String.get o_v1 dx); simpl in Hraise; [|congruence].
    apply getitem_Ok in Hy. rewrite Hy in Hraise. simpl in Hraise.
    apply foldlM_Raise in Hraise as (keep' & dy & _ & Hraise).
    unfold revise_inner, index in Hraise.
    destruct (String.get o_v2 dy); simpl in Hraise;
      [unfold mret, res_ret in Hraise|]; congruence.
Qed.

Lemma revise_short_word_witness :
  revise cw_cat_at slot_A slot_B (init_domains cw_cat_at) = Raise IndexError.
Proof.
  apply (revise_short_word cw_cat_at slot_A slot_B (init_domains cw_cat_at)
           2 0 {["cat"; "at"]}%string {["cat"; "at"]}%string "at"%string).
  - reflexivity.
  - reflexivity.
  - reflexivity.
  - set_solver.
  - simpl. lia.
Defined.

(** X21: on a puzzle without slots [solve] returns the empty assignment. *)
Theorem solve_no_slot (cw : Crossword) (Hempty : variables cw = ∅) :
  solve cw = Some (Ok (Some ∅)).
Proof.
  assert (node_domains cw = ∅) as Hnode.
  { apply map_eq. intros x. rewrite node_domains_lookup, lookup_empty.
    rewrite decide_False; [done|]. rewrite Hempty. set_solver. }
  unfold solve. fold (node_domains cw). rewrite Hnode.
  assert (all_arcs cw ∅ = []) as ->.
  { unfold all_arcs. by rewrite map_to_list_empty. }
  simpl. unfold assignment_complete.
  by rewrite bool_decide_true by (by rewrite dom_empty_L).
Qed.

Lemma solve_no_slot_witness :
  solve (mkCrossword ∅ {["cat"]}%string overlaps_AB) = Some (Ok (Some ∅)).
Proof. by apply solve_no_slot. Defined.
